(** * Minesweeper-Solver: the board, the LP solver's decision loop and the game round

    A shallow embedding of [board.py], [solver.py] and [game.py].

    - Python lists of lists ([pressed], [flagged], [is_mine],
      [neighboring_mine_count]) are lists of rows, read and written with
      Python's indexing: an index in [-len, len) is accepted (negative
      ones count from the end), any other raises [IndexError].
    - Methods of [Board] run in a state-and-exception monad over the board:
      an exception carries the board as it was when it was raised.
    - [Board.click] is recursive on the mutated board; it is written with
      fuel, and shown to need no more than one unit per unpressed block.
    - The LP solve of cvxpy is an oracle of the development; the estimates it
      returns are rationals. *)

From Stdlib Require Import ZArith QArith Qabs Lia.
From stdpp Require Import base option list sorting gmap.

Close Scope Q_scope.
Local Open Scope Z_scope.

(** ** Python list indexing *)

Section PyList.
Context {A : Type}.

(** The position a Python index denotes in a list of length [n]. *)
Definition py_index (n : nat) (i : Z) : option nat :=
  if decide (0 ≤ i < Z.of_nat n) then Some (Z.to_nat i)
  else if decide (- Z.of_nat n ≤ i < 0) then Some (Z.to_nat (Z.of_nat n + i))
  else None.

(** [l[i]] *)
Definition py_get (l : list A) (i : Z) : option A :=
  k ← py_index (length l) i; l !! k.

(** [l[i] = v] *)
Definition py_set (l : list A) (i : Z) (v : A) : option (list A) :=
  k ← py_index (length l) i; Some (<[k:=v]> l).

End PyList.

(** [g[y][x]] on a list of rows *)
Definition grid_get {A} (g : list (list A)) (y x : Z) : option A :=
  row ← py_get g y; py_get row x.

(** [g[y][x] = v]: the row object [g[y]] is fetched, then updated in
    place; rows are distinct objects, so only row [y] changes. *)
Definition grid_set {A} (g : list (list A)) (y x : Z) (v : A) : option (list (list A)) :=
  row ← py_get g y; row' ← py_set row x v; py_set g y row'.

(** [[[v] * w for _ in range(h)]] *)
Definition grid_make {A} (h w : Z) (v : A) : list (list A) :=
  replicate (Z.to_nat h) (replicate (Z.to_nat w) v).

(** ** The board *)

Definition cell : Type := Z * Z.
Definition triple : Type := Z * Z * Z.

Record Board := mkBoard {
  windowWidth : Z;
  windowHeight : Z;
  mines : Z;
  pressed : list (list bool);
  flagged : list (list bool);
  is_mine : list (list bool);
  neighboring_mine_count : list (list Z);
  _bombed : bool;
  remaining : Z;
  flags_remaining : Z
}.

Definition with_pressed (g : list (list bool)) (b : Board) : Board :=
  mkBoard (windowWidth b) (windowHeight b) (mines b) g (flagged b) (is_mine b)
          (neighboring_mine_count b) (_bombed b) (remaining b) (flags_remaining b).
Definition with_flagged (g : list (list bool)) (b : Board) : Board :=
  mkBoard (windowWidth b) (windowHeight b) (mines b) (pressed b) g (is_mine b)
          (neighboring_mine_count b) (_bombed b) (remaining b) (flags_remaining b).
Definition with_is_mine (g : list (list bool)) (b : Board) : Board :=
  mkBoard (windowWidth b) (windowHeight b) (mines b) (pressed b) (flagged b) g
          (neighboring_mine_count b) (_bombed b) (remaining b) (flags_remaining b).
Definition with_count (g : list (list Z)) (b : Board) : Board :=
  mkBoard (windowWidth b) (windowHeight b) (mines b) (pressed b) (flagged b) (is_mine b)
          g (_bombed b) (remaining b) (flags_remaining b).
Definition with_bombed (v : bool) (b : Board) : Board :=
  mkBoard (windowWidth b) (windowHeight b) (mines b) (pressed b) (flagged b) (is_mine b)
          (neighboring_mine_count b) v (remaining b) (flags_remaining b).
Definition with_remaining (v : Z) (b : Board) : Board :=
  mkBoard (windowWidth b) (windowHeight b) (mines b) (pressed b) (flagged b) (is_mine b)
          (neighboring_mine_count b) (_bombed b) v (flags_remaining b).
Definition with_flags_remaining (v : Z) (b : Board) : Board :=
  mkBoard (windowWidth b) (windowHeight b) (mines b) (pressed b) (flagged b) (is_mine b)
          (neighboring_mine_count b) (_bombed b) (remaining b) v.

(** ** The monad of board methods *)

Inductive outcome (A : Type) : Type :=
| Ok (a : A) (b : Board)      (* normal return, with the board as left *)
| IndexError (b : Board)      (* raised, with the board as it was then *)
| OutOfFuel.                  (* the model's recursion budget ran out *)
Arguments Ok {A} a b.
Arguments IndexError {A} b.
Arguments OutOfFuel {A}.

Definition M (A : Type) : Type := Board → outcome A.

Definition ret {A} (a : A) : M A := λ b, Ok a b.
Definition bind {A B} (m : M A) (k : A → M B) : M B :=
  λ b, match m b with
       | Ok a b' => k a b'
       | IndexError b' => IndexError b'
       | OutOfFuel => OutOfFuel
       end.
Definition read {A} (f : Board → A) : M A := λ b, Ok (f b) b.
Definition modify (f : Board → Board) : M unit := λ b, Ok tt (f b).
(** A list access that may raise. *)
Definition index {A} (o : Board → option A) : M A :=
  λ b, match o b with Some a => Ok a b | None => IndexError b end.
(** A list store that may raise. *)
Definition store (o : Board → option Board) : M unit :=
  λ b, match o b with Some b' => Ok tt b' | None => IndexError b end.

Declare Scope board_scope.
Delimit Scope board_scope with board.
Notation "x <- m ;; k" := (bind m (λ x, k))
  (at level 100, m at next level, right associativity) : board_scope.
Notation "m ;;; k" := (bind m (λ _, k))
  (at level 100, right associativity) : board_scope.
Local Open Scope board_scope.

(** [for a in l: acc = body(a, acc)] *)
Fixpoint for_each {A S} (l : list A) (body : A → S → M S) (acc : S) : M S :=
  match l with
  | [] => ret acc
  | a :: l' => acc' <- body a acc ;; for_each l' body acc'
  end.

Definition in_bounds (b : Board) (x y : Z) : bool :=
  bool_decide (0 ≤ x < windowWidth b) && bool_decide (0 ≤ y < windowHeight b).

(** The fixed enumeration of the 8 neighbours used by [create] and [click]. *)
Definition neighbors8 (x y : Z) : list cell :=
  [(x+1, y); (x+1, y+1); (x, y+1); (x-1, y+1); (x-1, y); (x-1, y-1); (x, y-1); (x+1, y-1)].

(** [Board.click].  [self._bombed or self.pressed[y][x] or self.flagged[y][x]]
    short-circuits from the left. *)
Fixpoint click_fuel (fuel : nat) (x y : Z) : M (list triple) :=
  match fuel with
  | O => λ _, OutOfFuel
  | S fuel' =>
    bombed <- read _bombed ;;
    skip <- (if bombed then ret true else
             p <- index (λ b, grid_get (pressed b) y x) ;;
             if p then ret true else index (λ b, grid_get (flagged b) y x)) ;;
    if skip then ret [] else
    m <- index (λ b, grid_get (is_mine b) y x) ;;
    if m then
      modify (with_bombed true) ;;;
      ret [(x, y, -1)]
    else
      store (λ b, g ← grid_set (pressed b) y x true; Some (with_pressed g b)) ;;;
      modify (λ b, with_remaining (remaining b - 1) b) ;;;
      n <- index (λ b, grid_get (neighboring_mine_count b) y x) ;;
      let revealed := [(x, y, n)] in
      n' <- index (λ b, grid_get (neighboring_mine_count b) y x) ;;
      if n' =? 0 then
        for_each (neighbors8 x y)
          (λ '(new_x, new_y) revealed,
             inb <- read (λ b, in_bounds b new_x new_y) ;;
             if inb then
               r <- click_fuel fuel' new_x new_y ;;
               ret (revealed ++ r)
             else ret revealed)
          revealed
      else ret revealed
  end.

(** [[(x, y) for x in range(w) for y in range(h)]] *)
Definition candidates (w h : Z) : list cell :=
  x ← seqZ 0 w; y ← seqZ 0 h; [(x, y)].

(** A call of [click] that goes on to recurse has pressed one more block, and
    only blocks of the board are recursed into: one unit of fuel per block,
    and one for the outermost call, is enough (see [click_fuel_enough]).
    Python's own recursion limit is not modelled. *)
Definition click (x y : Z) : M (list triple) :=
  λ b, click_fuel (S (S (length (candidates (windowWidth b) (windowHeight b))))) x y b.

(** [Board.flag] *)
Definition flag (x y : Z) : M unit :=
  bombed <- read _bombed ;;
  skip <- (if bombed then ret true else index (λ b, grid_get (pressed b) y x)) ;;
  if skip then ret tt else
  f <- index (λ b, grid_get (flagged b) y x) ;;
  store (λ b, g ← grid_set (flagged b) y x (negb f); Some (with_flagged g b)) ;;;
  f' <- index (λ b, grid_get (flagged b) y x) ;;
  modify (λ b, with_flags_remaining
                 (flags_remaining b + (if negb f' then 1 else -1)) b).

(** [Board.has_won] *)
Definition has_won (b : Board) : bool := remaining b =? 0.

(** ** Facts on Python indexing and on grids *)

(** A grid of [h] rows of [w] entries each. *)
Definition shaped {A} (h w : nat) (g : list (list A)) : Prop :=
  length g = h ∧ Forall (λ r, length r = w) g.

(** The in-range coordinate a pair of Python indices denotes on a grid of
    width [w] and height [h]. *)
Definition canon (w h : nat) (x y : Z) : option cell :=
  kx ← py_index w x; ky ← py_index h y; Some (Z.of_nat kx, Z.of_nat ky).

Lemma py_index_lt n i k : py_index n i = Some k → (k < n)%nat.
Proof. unfold py_index. repeat case_decide; intros; simplify_eq; lia. Qed.

Lemma py_index_nonneg n i : 0 ≤ i < Z.of_nat n → py_index n i = Some (Z.to_nat i).
Proof. intros. unfold py_index. by rewrite decide_True. Qed.

Lemma py_index_None n i : py_index n i = None ↔ (i < - Z.of_nat n ∨ Z.of_nat n ≤ i).
Proof. unfold py_index. repeat case_decide; split; intros; simplify_eq; try done; lia. Qed.

Lemma py_index_of_nat n k : (k < n)%nat → py_index n (Z.of_nat k) = Some k.
Proof. intros. rewrite py_index_nonneg by lia. by rewrite Nat2Z.id. Qed.

Lemma canon_in_range w h x y c :
  canon w h x y = Some c → 0 ≤ c.1 < Z.of_nat w ∧ 0 ≤ c.2 < Z.of_nat h.
Proof.
  unfold canon. intros Hc.
  destruct (py_index w x) as [kx|] eqn:Hx; [|done].
  destruct (py_index h y) as [ky|] eqn:Hy; [|done].
  simpl in Hc. simplify_eq. simpl.
  apply py_index_lt in Hx, Hy. lia.
Qed.

Lemma canon_id w h x y :
  0 ≤ x < Z.of_nat w → 0 ≤ y < Z.of_nat h → canon w h x y = Some (x, y).
Proof.
  intros Hx Hy. unfold canon.
  rewrite !py_index_nonneg by done. simpl. by rewrite !Z2Nat.id by lia.
Qed.

Lemma canon_None w h x y :
  canon w h x y = None ↔
  (x < - Z.of_nat w ∨ Z.of_nat w ≤ x ∨ y < - Z.of_nat h ∨ Z.of_nat h ≤ y).
Proof.
  unfold canon.
  destruct (py_index w x) as [kx|] eqn:Hx; simpl.
  - destruct (py_index h y) as [ky|] eqn:Hy; simpl.
    + apply py_index_lt in Hx as Hx', Hy as Hy'.
      split; [done|]. intros Hor.
      assert (py_index w x = None ∨ py_index h y = None) as [?|?];
        [rewrite !py_index_None; lia|congruence..].
    + apply py_index_None in Hy. split; [lia|done].
  - apply py_index_None in Hx. split; [lia|done].
Qed.

Section Grid.
Context {A : Type}.
Implicit Types (g : list (list A)) (v : A).

Lemma shaped_lookup h w g k row :
  shaped h w g → g !! k = Some row → length row = w.
Proof. intros [_ Hall] Hk. by eapply (Forall_lookup_1 _ _ _ _ Hall). Qed.

(** On a shaped grid, [g[y][x]] is the entry at the canonical coordinate. *)
Lemma grid_get_canon h w g y x :
  shaped h w g →
  grid_get g y x = c ← canon w h x y; grid_get g c.2 c.1.
Proof.
  intros Hs. pose proof Hs as [Hlen _]. unfold grid_get, canon, py_get.
  rewrite Hlen.
  destruct (py_index h y) as [ky|] eqn:Hy; simpl.
  - apply py_index_lt in Hy as Hlt.
    destruct (g !! ky) as [row|] eqn:Hrow; simpl.
    + rewrite (shaped_lookup _ _ _ _ _ Hs Hrow).
      destruct (py_index w x) as [kx|] eqn:Hx; simpl; [|done].
      rewrite py_index_of_nat by done. simpl. rewrite Hrow. simpl.
      rewrite (shaped_lookup _ _ _ _ _ Hs Hrow).
      apply py_index_lt in Hx as Hltx.
      by rewrite py_index_of_nat.
    + apply lookup_ge_None in Hrow. lia.
  - by destruct (py_index w x).
Qed.

Lemma grid_get_is_Some h w g y x :
  shaped h w g → is_Some (grid_get g y x) ↔ is_Some (canon w h x y).
Proof.
  intros Hs. pose proof Hs as [Hlen _]. unfold grid_get, canon, py_get.
  rewrite Hlen.
  destruct (py_index h y) as [ky|] eqn:Hy; simpl.
  - apply py_index_lt in Hy as Hlt.
    destruct (lookup_lt_is_Some_2 g ky) as [row Hrow]; [lia|].
    rewrite Hrow. simpl. rewrite (shaped_lookup _ _ _ _ _ Hs Hrow).
    destruct (py_index w x) as [kx|] eqn:Hx; simpl.
    + apply py_index_lt in Hx as Hltx.
      split; [eauto|]. intros _. apply lookup_lt_is_Some_2.
      by rewrite (shaped_lookup _ _ _ _ _ Hs Hrow).
    + split; intros [? ?]; done.
  - destruct (py_index w x); simpl; split; intros [? ?]; done.
Qed.

Lemma grid_get_in_range h w g y x :
  shaped h w g → 0 ≤ x < Z.of_nat w → 0 ≤ y < Z.of_nat h →
  is_Some (grid_get g y x).
Proof.
  intros Hs Hx Hy. rewrite (grid_get_is_Some _ _ _ _ _ Hs), canon_id by done. eauto.
Qed.

(** A store succeeds exactly when the load does. *)
Lemma grid_set_is_Some g y x v :
  is_Some (grid_set g y x v) ↔ is_Some (grid_get g y x).
Proof.
  unfold grid_set, grid_get, py_get, py_set.
  destruct (py_index (length g) y) as [ky|] eqn:Hy; simpl; [|done].
  destruct (g !! ky) as [row|] eqn:Hrow; simpl; [|done].
  destruct (py_index (length row) x) as [kx|] eqn:Hx; simpl.
  - apply py_index_lt in Hx.
    split; intros _; [by apply lookup_lt_is_Some_2|eauto].
  - split; intros [? ?]; done.
Qed.

(** The effect of a store on a shaped grid, seen at in-range coordinates. *)
Lemma grid_set_spec h w g y x v g' :
  shaped h w g → grid_set g y x v = Some g' →
  shaped h w g' ∧
  ∃ c0, canon w h x y = Some c0 ∧
    ∀ x' y', 0 ≤ x' < Z.of_nat w → 0 ≤ y' < Z.of_nat h →
      grid_get g' y' x' = if decide ((x', y') = c0) then Some v else grid_get g y' x'.
Proof.
  intros Hs Hset. pose proof Hs as [Hlen Hall].
  unfold grid_set, py_get, py_set in Hset. rewrite Hlen in Hset.
  destruct (py_index h y) as [ky|] eqn:Hy; simpl in Hset; [|done].
  destruct (g !! ky) as [row|] eqn:Hrow; simpl in Hset; [|done].
  pose proof (shaped_lookup _ _ _ _ _ Hs Hrow) as Hrl. rewrite Hrl in Hset.
  destruct (py_index w x) as [kx|] eqn:Hx; simpl in Hset; [|done].
  injection Hset as <-.
  apply py_index_lt in Hx as Hltx, Hy as Hlty.
  split.
  - split; [by rewrite length_insert|].
    apply Forall_insert; [done|]. by rewrite length_insert.
  - exists (Z.of_nat kx, Z.of_nat ky). split.
    { unfold canon. by rewrite Hx, Hy. }
    intros x' y' Hx' Hy'. unfold grid_get, py_get.
    rewrite length_insert, Hlen, (py_index_nonneg h y') by done. simpl.
    destruct (decide (Z.to_nat y' = ky)) as [Hey|Hne].
    + rewrite Hey, list_lookup_insert_eq by lia. simpl.
      rewrite Hrow. simpl. rewrite length_insert, Hrl.
      rewrite (py_index_nonneg w x') by done. simpl.
      destruct (decide (Z.to_nat x' = kx)) as [Hex|Hnx].
      * rewrite Hex, list_lookup_insert_eq by lia.
        rewrite decide_True; [done|]. f_equal; lia.
      * rewrite list_lookup_insert_ne by done.
        rewrite decide_False; [done|]. intros [= ? ?]. lia.
    + rewrite list_lookup_insert_ne by done.
      rewrite decide_False; [done|]. intros [= ? ?]. lia.
Qed.

Lemma shaped_grid_make h w v :
  shaped (Z.to_nat h) (Z.to_nat w) (grid_make h w v).
Proof.
  split; [apply length_replicate|].
  apply Forall_replicate, length_replicate.
Qed.

Lemma grid_get_make h w v x y :
  0 ≤ x < w → 0 ≤ y < h → grid_get (grid_make h w v) y x = Some v.
Proof.
  intros Hx Hy. unfold grid_get, py_get, grid_make.
  rewrite length_replicate, py_index_nonneg by lia. simpl.
  rewrite lookup_replicate_2 by lia. simpl.
  rewrite length_replicate, py_index_nonneg by lia. simpl.
  by rewrite lookup_replicate_2 by lia.
Qed.
End Grid.

(** ** Board construction *)

(** [Board.__init__].  The four grids are only declared there; [create]
    assigns them before anything reads them. *)
Definition Board_init (windowWidth windowHeight mines : Z) : Board :=
  mkBoard windowWidth windowHeight mines [] [] [] [] false
          (windowWidth * windowHeight - mines) mines.

(** The test that makes [create] skip a candidate: the four 2x2 corners. *)
Definition in_corner (w h x y : Z) : bool :=
  (bool_decide (x < 2) && bool_decide (y < 2))
  || (bool_decide (x < 2) && bool_decide (y > h - 3))
  || (bool_decide (x > w - 3) && bool_decide (y < 2))
  || (bool_decide (x > w - 3) && bool_decide (y > h - 3)).

(** The loop that selects the mined blocks, with its [continue] and [break]. *)
Fixpoint place_mines (cands : list cell) (mines_assigned : Z) : M unit :=
  match cands with
  | [] => ret tt
  | (x, y) :: rest =>
    corner <- read (λ b, in_corner (windowWidth b) (windowHeight b) x y) ;;
    if corner then place_mines rest mines_assigned else
    store (λ b, g ← grid_set (is_mine b) y x true; Some (with_is_mine g b)) ;;;
    let mines_assigned := mines_assigned + 1 in
    stop <- read (λ b, bool_decide (mines_assigned = mines b)) ;;
    if stop then ret tt else place_mines rest mines_assigned
  end.

(** [neighboring_mine_count[new_y][new_x] += 1] for those of the blocks [ns]
    that are on the board. *)
Definition bump_list (ns : list cell) : M unit :=
  for_each ns
    (λ '(new_x, new_y) _,
       inb <- read (λ b, in_bounds b new_x new_y) ;;
       if inb then
         n <- index (λ b, grid_get (neighboring_mine_count b) new_y new_x) ;;
         store (λ b, g ← grid_set (neighboring_mine_count b) new_y new_x (n + 1);
                     Some (with_count g b))
       else ret tt)
    tt.

Definition bump_neighbors (x y : Z) : M unit := bump_list (neighbors8 x y).

(** The loop over the blocks that looks for the mined ones. *)
Definition count_list (cells : list cell) : M unit :=
  for_each cells
    (λ '(x, y) _,
       m <- index (λ b, grid_get (is_mine b) y x) ;;
       if m then bump_neighbors x y else ret tt)
    tt.

(** The loop that computes the auxiliary counts. *)
Definition count_neighbors : M unit :=
  cells <- read (λ b, candidates (windowWidth b) (windowHeight b)) ;;
  count_list cells.

Section Create.
(** [random.shuffle], seeded in [__init__]: some rearrangement of the
    candidate list. *)
Variable shuffle : list cell → list cell.

(** [Board.create] *)
Definition create : M unit :=
  modify (λ b,
    let w := windowWidth b in
    let h := windowHeight b in
    mkBoard w h (mines b)
            (grid_make h w false) (grid_make h w false) (grid_make h w false)
            (grid_make h w 0) false (w * h - mines b) (mines b)) ;;;
  cands <- read (λ b, shuffle (candidates (windowWidth b) (windowHeight b))) ;;
  place_mines cands 0 ;;;
  count_neighbors.

(** Construct a board and create it, as [Game.__init__] and [Game.on_init] do. *)
Definition new_board (w h m : Z) : outcome unit := create (Board_init w h m).
End Create.

(** ** Reading a board by coordinate *)

Definition pressed_at (b : Board) (c : cell) : bool :=
  default false (grid_get (pressed b) c.2 c.1).
Definition flagged_at (b : Board) (c : cell) : bool :=
  default false (grid_get (flagged b) c.2 c.1).
Definition mine_at (b : Board) (c : cell) : bool :=
  default false (grid_get (is_mine b) c.2 c.1).
Definition count_at (b : Board) (c : cell) : Z :=
  default 0 (grid_get (neighboring_mine_count b) c.2 c.1).

Definition is_cell (b : Board) (c : cell) : Prop :=
  0 ≤ c.1 < windowWidth b ∧ 0 ≤ c.2 < windowHeight b.

Definition cells_of (b : Board) : list cell :=
  candidates (windowWidth b) (windowHeight b).

(** All four grids have [windowHeight] rows of [windowWidth] entries. *)
Record wf_board (b : Board) : Prop := {
  wf_pressed : shaped (Z.to_nat (windowHeight b)) (Z.to_nat (windowWidth b)) (pressed b);
  wf_flagged : shaped (Z.to_nat (windowHeight b)) (Z.to_nat (windowWidth b)) (flagged b);
  wf_is_mine : shaped (Z.to_nat (windowHeight b)) (Z.to_nat (windowWidth b)) (is_mine b);
  wf_count : shaped (Z.to_nat (windowHeight b)) (Z.to_nat (windowWidth b))
                    (neighboring_mine_count b)
}.

(** Number of mined blocks, of blocks outside the corners, and of blocks that
    are neither mined nor pressed. *)
Definition mine_count (b : Board) : nat :=
  length (filter (λ c, mine_at b c = true) (cells_of b)).
Definition eligible (w h : Z) : list cell :=
  filter (λ c, in_corner w h c.1 c.2 = false) (candidates w h).
Definition safe_unpressed (b : Board) : list cell :=
  filter (λ c, mine_at b c = false ∧ pressed_at b c = false) (cells_of b).

Lemma elem_of_candidates w h c : c ∈ candidates w h ↔ 0 ≤ c.1 < w ∧ 0 ≤ c.2 < h.
Proof.
  unfold candidates. rewrite list_elem_of_bind. split.
  - intros (x & Hin & Hx). apply list_elem_of_bind in Hin as (y & Hin & Hy).
    apply list_elem_of_singleton in Hin as ->. simpl.
    apply elem_of_seqZ in Hx, Hy. lia.
  - intros [Hx Hy]. exists c.1. split; [|apply elem_of_seqZ; lia].
    apply list_elem_of_bind. exists c.2. split; [|apply elem_of_seqZ; lia].
    destruct c. simpl. apply list_elem_of_singleton. done.
Qed.

Lemma NoDup_candidates w h : NoDup (candidates w h).
Proof.
  unfold candidates. apply NoDup_bind; [|intros x _|apply NoDup_seqZ].
  - intros x1 x2 c Hx1 Hx2 H1 H2.
    apply list_elem_of_bind in H1 as (y1 & H1 & _), H2 as (y2 & H2 & _).
    apply list_elem_of_singleton in H1, H2. congruence.
  - apply NoDup_bind; [|intros y _; apply NoDup_singleton|apply NoDup_seqZ].
    intros y1 y2 c _ _ H1 H2. apply list_elem_of_singleton in H1, H2. congruence.
Qed.

Lemma elem_of_cells_of b c : c ∈ cells_of b ↔ is_cell b c.
Proof. apply elem_of_candidates. Qed.

(** ** [click], case by case *)

(** The loop of [click] over the neighbours, from an accumulated list. *)
Definition click_neighbors (fuel : nat) (ns : list cell) (acc : list triple) : M (list triple) :=
  for_each ns
    (λ '(new_x, new_y) revealed,
       inb <- read (λ b, in_bounds b new_x new_y) ;;
       if inb then
         r <- click_fuel fuel new_x new_y ;;
         ret (revealed ++ r)
       else ret revealed)
    acc.

(** The board after [pressed[y][x] = True; remaining -= 1]. *)
Definition press (g : list (list bool)) (b : Board) : Board :=
  with_remaining (remaining b - 1) (with_pressed g b).

Lemma click_fuel_S fuel x y b :
  click_fuel (S fuel) x y b =
  if _bombed b then Ok [] b else
  match grid_get (pressed b) y x with
  | None => IndexError b
  | Some true => Ok [] b
  | Some false =>
    match grid_get (flagged b) y x with
    | None => IndexError b
    | Some true => Ok [] b
    | Some false =>
      match grid_get (is_mine b) y x with
      | None => IndexError b
      | Some true => Ok [(x, y, -1)] (with_bombed true b)
      | Some false =>
        match grid_set (pressed b) y x true with
        | None => IndexError b
        | Some g =>
          match grid_get (neighboring_mine_count b) y x with
          | None => IndexError (press g b)
          | Some n =>
            if n =? 0 then click_neighbors fuel (neighbors8 x y) [(x, y, n)] (press g b)
            else Ok [(x, y, n)] (press g b)
          end
        end
      end
    end
  end.
Proof.
  cbn [click_fuel]. unfold click_neighbors, bind, read, index, store, modify, ret.
  cbv beta iota.
  destruct (_bombed b) eqn:Hb; [done|].
  destruct (grid_get (pressed b) y x) as [[]|]; [done| |done].
  destruct (grid_get (flagged b) y x) as [[]|]; [done| |done].
  destruct (grid_get (is_mine b) y x) as [[]|]; [done| |done].
  destruct (grid_set (pressed b) y x true) as [g|]; [|done].
  cbn [mbind option_bind]. cbv beta iota.
  change (neighboring_mine_count (with_remaining _ _)) with (neighboring_mine_count b).
  destruct (grid_get (neighboring_mine_count b) y x) as [n|] eqn:Hn; [|done].
  cbv beta iota.
  change (neighboring_mine_count (with_remaining _ _)) with (neighboring_mine_count b).
  rewrite Hn.
  destruct (n =? 0); done.
Qed.

Lemma click_neighbors_nil fuel acc b : click_neighbors fuel [] acc b = Ok acc b.
Proof. done. Qed.

Lemma click_neighbors_cons fuel nx ny ns acc b :
  click_neighbors fuel ((nx, ny) :: ns) acc b =
  if in_bounds b nx ny then
    match click_fuel fuel nx ny b with
    | Ok r b' => click_neighbors fuel ns (acc ++ r) b'
    | IndexError b' => IndexError b'
    | OutOfFuel => OutOfFuel
    end
  else click_neighbors fuel ns acc b.
Proof.
  unfold click_neighbors. cbn [for_each]. unfold bind, read, ret.
  destruct (in_bounds b nx ny); [|done].
  by destruct (click_fuel fuel nx ny b).
Qed.

Lemma flag_unfold x y b :
  flag x y b =
  if _bombed b then Ok tt b else
  match grid_get (pressed b) y x with
  | None => IndexError b
  | Some true => Ok tt b
  | Some false =>
    match grid_get (flagged b) y x with
    | None => IndexError b
    | Some f =>
      match grid_set (flagged b) y x (negb f) with
      | None => IndexError b
      | Some g =>
        match grid_get g y x with
        | None => IndexError (with_flagged g b)
        | Some f' =>
          Ok tt (with_flags_remaining
                   (flags_remaining b + (if negb f' then 1 else -1))
                   (with_flagged g b))
        end
      end
    end
  end.
Proof.
  unfold flag, bind, read, index, store, modify, ret.
  destruct (_bombed b); [done|].
  destruct (grid_get (pressed b) y x) as [[]|]; [done| |done].
  destruct (grid_get (flagged b) y x) as [f|]; [|done].
  destruct (grid_set (flagged b) y x (negb f)) as [g|]; [|done]. cbn.
  by destruct (grid_get g y x).
Qed.

(** ** What a call of [click] can do to the board *)

(** The two assignments [click] makes: pressing a block that is neither
    pressed, flagged nor mined (and counting it), and setting [_bombed] on a
    mined one. *)
Inductive press_step : Board → Board → Prop :=
| step_press b x y g :
    _bombed b = false →
    grid_get (pressed b) y x = Some false →
    grid_get (flagged b) y x = Some false →
    grid_get (is_mine b) y x = Some false →
    grid_set (pressed b) y x true = Some g →
    press_step b (press g b)
| step_bomb b x y :
    _bombed b = false →
    grid_get (pressed b) y x = Some false →
    grid_get (flagged b) y x = Some false →
    grid_get (is_mine b) y x = Some true →
    press_step b (with_bombed true b).

Definition outcome_board {A} (o : outcome A) : option Board :=
  match o with Ok _ b | IndexError b => Some b | OutOfFuel => None end.

Lemma click_neighbors_steps fuel
    (IH : ∀ x y b b', outcome_board (click_fuel fuel x y b) = Some b' → rtc press_step b b') :
  ∀ ns acc b b',
    outcome_board (click_neighbors fuel ns acc b) = Some b' → rtc press_step b b'.
Proof.
  induction ns as [|[nx ny] ns IHns]; intros acc b b' Hrun.
  - rewrite click_neighbors_nil in Hrun. by simplify_eq/=.
  - rewrite click_neighbors_cons in Hrun.
    destruct (in_bounds b nx ny); [|by eapply IHns].
    destruct (click_fuel fuel nx ny b) as [r b1|b1|] eqn:Hc; [| |done].
    + etrans; [apply (IH nx ny b b1); by rewrite Hc|by eapply IHns].
    + simplify_eq/=. apply (IH nx ny b b'). by rewrite Hc.
Qed.

Lemma click_fuel_steps fuel x y b b' :
  outcome_board (click_fuel fuel x y b) = Some b' → rtc press_step b b'.
Proof.
  revert x y b b'. induction fuel as [|fuel IH]; intros x y b b'; [done|].
  rewrite click_fuel_S.
  destruct (_bombed b) eqn:Hb; [by intros; simplify_eq/=|].
  destruct (grid_get (pressed b) y x) as [[]|] eqn:Hp; [by intros; simplify_eq/=| |by intros; simplify_eq/=].
  destruct (grid_get (flagged b) y x) as [[]|] eqn:Hf; [by intros; simplify_eq/=| |by intros; simplify_eq/=].
  destruct (grid_get (is_mine b) y x) as [[]|] eqn:Hm; [| |by intros; simplify_eq/=].
  { intros; simplify_eq/=. apply rtc_once. by eapply step_bomb. }
  destruct (grid_set (pressed b) y x true) as [g|] eqn:Hg; [|by intros; simplify_eq/=].
  assert (press_step b (press g b)) as Hstep by by eapply step_press.
  destruct (grid_get (neighboring_mine_count b) y x) as [n|];
    [|by intros; simplify_eq/=; apply rtc_once].
  destruct (n =? 0); [|by intros; simplify_eq/=; apply rtc_once].
  intros Hrun. eapply rtc_l; [done|]. by eapply click_neighbors_steps.
Qed.

(** ** Counting blocks *)

Lemma filter_ext_in {A} (P Q : A → Prop)
    `{!∀ x, Decision (P x)} `{!∀ x, Decision (Q x)} (l : list A) :
  (∀ c, c ∈ l → (P c ↔ Q c)) → filter P l = filter Q l.
Proof.
  induction l as [|a l IH]; intros Hiff; [done|].
  rewrite !filter_cons.
  assert (P a ↔ Q a) as Ha by (apply Hiff; left).
  rewrite IH by (intros; apply Hiff; by right).
  destruct (decide (P a)), (decide (Q a)); tauto || done.
Qed.

Lemma filter_length_ext {A} (P Q : A → Prop)
    `{!∀ x, Decision (P x)} `{!∀ x, Decision (Q x)} (l : list A) :
  (∀ c, c ∈ l → (P c ↔ Q c)) → length (filter P l) = length (filter Q l).
Proof. intros Hiff. f_equal. by apply filter_ext_in. Qed.

Lemma filter_remove_one {A} `{!EqDecision A} (P Q : A → Prop)
    `{!∀ x, Decision (P x)} `{!∀ x, Decision (Q x)} (l : list A) (a : A) :
  NoDup l → a ∈ l → P a → ¬ Q a → (∀ c, c ∈ l → c ≠ a → (Q c ↔ P c)) →
  length (filter P l) = S (length (filter Q l)).
Proof.
  intros Hnd Hin HP HQ Hiff.
  induction Hnd as [|c l Hc Hnd IH].
  - by apply elem_of_nil in Hin.
  - rewrite !filter_cons.
    destruct (decide (c = a)) as [->|Hne].
    + rewrite decide_True, decide_False by done. simpl. f_equal.
      f_equal. apply filter_ext_in.
      intros c' Hc'. symmetry. apply Hiff; [by right|]. by intros ->.
    + apply elem_of_cons in Hin as [?|Hin]; [done|].
      assert (Q c ↔ P c) as Hc' by (apply Hiff; [by left|done]).
      assert (length (filter P l) = S (length (filter Q l))) as IH'.
      { apply IH; [done|]. intros; apply Hiff; [by right|done]. }
      destruct (decide (P c)), (decide (Q c)); simpl; try tauto; by rewrite IH'.
Qed.

(** ** Well-formed boards, cell by cell *)

Definition canon_of (b : Board) (x y : Z) : option cell :=
  canon (Z.to_nat (windowWidth b)) (Z.to_nat (windowHeight b)) x y.

Lemma canon_of_is_cell b x y c : canon_of b x y = Some c → is_cell b c.
Proof. intros Hc. apply canon_in_range in Hc. unfold is_cell. lia. Qed.

Lemma canon_of_cell b c : is_cell b c → canon_of b c.1 c.2 = Some c.
Proof.
  intros [Hx Hy]. unfold canon_of. rewrite canon_id by lia. by destruct c.
Qed.

Lemma canon_of_None b x y :
  canon_of b x y = None ↔
  (x < - Z.max 0 (windowWidth b) ∨ Z.max 0 (windowWidth b) ≤ x
   ∨ y < - Z.max 0 (windowHeight b) ∨ Z.max 0 (windowHeight b) ≤ y).
Proof. unfold canon_of. rewrite canon_None. lia. Qed.

Lemma shaped_get {A} h w (g : list (list A)) (d : A) x y :
  shaped h w g →
  grid_get g y x = c ← canon w h x y; Some (default d (grid_get g c.2 c.1)).
Proof.
  intros Hs. rewrite (grid_get_canon _ _ _ _ _ Hs).
  destruct (canon w h x y) as [c|] eqn:Hc; [simpl|done].
  apply canon_in_range in Hc as [Hx Hy].
  by destruct (grid_get_in_range _ _ _ _ _ Hs Hx Hy) as [v ->].
Qed.

Section WfBoard.
Context (b : Board) (Hwf : wf_board b).

Lemma get_pressed x y :
  grid_get (pressed b) y x = c ← canon_of b x y; Some (pressed_at b c).
Proof. apply shaped_get, Hwf. Qed.
Lemma get_flagged x y :
  grid_get (flagged b) y x = c ← canon_of b x y; Some (flagged_at b c).
Proof. apply shaped_get, Hwf. Qed.
Lemma get_is_mine x y :
  grid_get (is_mine b) y x = c ← canon_of b x y; Some (mine_at b c).
Proof. apply shaped_get, Hwf. Qed.
Lemma get_count x y :
  grid_get (neighboring_mine_count b) y x = c ← canon_of b x y; Some (count_at b c).
Proof. apply shaped_get, Hwf. Qed.

Lemma get_pressed_cell x y :
  is_cell b (x, y) → grid_get (pressed b) y x = Some (pressed_at b (x, y)).
Proof. intros Hc%canon_of_cell. simpl in Hc. by rewrite get_pressed, Hc. Qed.
Lemma get_flagged_cell x y :
  is_cell b (x, y) → grid_get (flagged b) y x = Some (flagged_at b (x, y)).
Proof. intros Hc%canon_of_cell. simpl in Hc. by rewrite get_flagged, Hc. Qed.
Lemma get_is_mine_cell x y :
  is_cell b (x, y) → grid_get (is_mine b) y x = Some (mine_at b (x, y)).
Proof. intros Hc%canon_of_cell. simpl in Hc. by rewrite get_is_mine, Hc. Qed.
Lemma get_count_cell x y :
  is_cell b (x, y) →
  grid_get (neighboring_mine_count b) y x = Some (count_at b (x, y)).
Proof. intros Hc%canon_of_cell. simpl in Hc. by rewrite get_count, Hc. Qed.

(** Pressing a block: the board stays well formed and exactly the block at
    the canonical coordinate changes. *)
Lemma press_spec x y g c0 :
  canon_of b x y = Some c0 →
  grid_set (pressed b) y x true = Some g →
  wf_board (press g b) ∧
  ∀ c, is_cell b c →
    pressed_at (press g b) c = if decide (c = c0) then true else pressed_at b c.
Proof.
  intros Hc Hg.
  destruct (grid_set_spec _ _ _ _ _ _ _ (wf_pressed _ Hwf) Hg) as (Hs & c1 & Hc1 & Hget).
  unfold canon_of in Hc. simplify_eq. split.
  - destruct Hwf. by split.
  - intros [cx cy] [Hx Hy]. unfold pressed_at. simpl in *.
    rewrite Hget by lia. repeat case_decide; done.
Qed.
End WfBoard.

(** The relation between the board before and after any number of steps of
    [click]. *)
Record evolves (b b' : Board) : Prop := {
  ev_width : windowWidth b' = windowWidth b;
  ev_height : windowHeight b' = windowHeight b;
  ev_mines : mines b' = mines b;
  ev_flagged : flagged b' = flagged b;
  ev_is_mine : is_mine b' = is_mine b;
  ev_count : neighboring_mine_count b' = neighboring_mine_count b;
  ev_flags_remaining : flags_remaining b' = flags_remaining b;
  ev_wf : wf_board b';
  ev_pressed_mono : ∀ c, is_cell b c → pressed_at b c = true → pressed_at b' c = true;
  ev_pressed_new : ∀ c, is_cell b c → pressed_at b c = false → pressed_at b' c = true →
                   flagged_at b c = false ∧ mine_at b c = false;
  ev_remaining : remaining b' + Z.of_nat (length (safe_unpressed b))
                 = remaining b + Z.of_nat (length (safe_unpressed b'));
  ev_measure : (length (safe_unpressed b') ≤ length (safe_unpressed b))%nat;
  ev_bombed : _bombed b = true → b' = b;
  ev_bombed_mono : _bombed b' = false → _bombed b = false
}.

Lemma evolves_refl b : wf_board b → evolves b b.
Proof. intros Hwf. split; try done. by intros c _ -> [=]. Qed.

Lemma evolves_cells b b' : evolves b b' → cells_of b' = cells_of b.
Proof. intros Hev. unfold cells_of. by rewrite (ev_width _ _ Hev), (ev_height _ _ Hev). Qed.

Lemma evolves_is_cell b b' c : evolves b b' → is_cell b' c ↔ is_cell b c.
Proof. intros Hev. unfold is_cell. by rewrite (ev_width _ _ Hev), (ev_height _ _ Hev). Qed.

Lemma evolves_mine_at b b' c : evolves b b' → mine_at b' c = mine_at b c.
Proof. intros Hev. unfold mine_at. by rewrite (ev_is_mine _ _ Hev). Qed.
Lemma evolves_flagged_at b b' c : evolves b b' → flagged_at b' c = flagged_at b c.
Proof. intros Hev. unfold flagged_at. by rewrite (ev_flagged _ _ Hev). Qed.
Lemma evolves_count_at b b' c : evolves b b' → count_at b' c = count_at b c.
Proof. intros Hev. unfold count_at. by rewrite (ev_count _ _ Hev). Qed.

Lemma evolves_trans b1 b2 b3 : evolves b1 b2 → evolves b2 b3 → evolves b1 b3.
Proof.
  intros H12 H23. split.
  - by rewrite (ev_width _ _ H23), (ev_width _ _ H12).
  - by rewrite (ev_height _ _ H23), (ev_height _ _ H12).
  - by rewrite (ev_mines _ _ H23), (ev_mines _ _ H12).
  - by rewrite (ev_flagged _ _ H23), (ev_flagged _ _ H12).
  - by rewrite (ev_is_mine _ _ H23), (ev_is_mine _ _ H12).
  - by rewrite (ev_count _ _ H23), (ev_count _ _ H12).
  - by rewrite (ev_flags_remaining _ _ H23), (ev_flags_remaining _ _ H12).
  - apply (ev_wf _ _ H23).
  - intros c Hc Hp. apply (ev_pressed_mono _ _ H23); [by apply (evolves_is_cell b1 b2)|].
    by apply (ev_pressed_mono _ _ H12).
  - intros c Hc Hp Hp3.
    destruct (pressed_at b2 c) eqn:Hp2.
    + by apply (ev_pressed_new _ _ H12).
    + rewrite <- (evolves_flagged_at b1 b2), <- (evolves_mine_at b1 b2) by done.
      apply (ev_pressed_new _ _ H23); [by apply (evolves_is_cell b1 b2)|done..].
  - pose proof (ev_remaining _ _ H12). pose proof (ev_remaining _ _ H23). lia.
  - pose proof (ev_measure _ _ H12). pose proof (ev_measure _ _ H23). lia.
  - intros Hb. pose proof (ev_bombed _ _ H12 Hb) as Heq. subst b2.
    by apply (ev_bombed _ _ H23).
  - intros Hb. apply (ev_bombed_mono _ _ H12), (ev_bombed_mono _ _ H23), Hb.
Qed.

(** What the guards of [click] say about the block at the canonical
    coordinate. *)
Lemma guards_canon b x y p f m :
  wf_board b →
  grid_get (pressed b) y x = Some p →
  grid_get (flagged b) y x = Some f →
  grid_get (is_mine b) y x = Some m →
  ∃ c0, canon_of b x y = Some c0 ∧ is_cell b c0 ∧
        pressed_at b c0 = p ∧ flagged_at b c0 = f ∧ mine_at b c0 = m.
Proof.
  intros Hwf Hp Hf Hm.
  rewrite get_pressed in Hp by done. rewrite get_flagged in Hf by done.
  rewrite get_is_mine in Hm by done.
  destruct (canon_of b x y) as [c0|] eqn:Hc; [|done]. simpl in *.
  exists c0. split_and!; [done|by eapply canon_of_is_cell|congruence..].
Qed.

Lemma press_safe_unpressed b x y g c0 :
  wf_board b → canon_of b x y = Some c0 →
  pressed_at b c0 = false → mine_at b c0 = false →
  grid_set (pressed b) y x true = Some g →
  length (safe_unpressed b) = S (length (safe_unpressed (press g b))).
Proof.
  intros Hwf Hc Hp Hm Hg.
  destruct (press_spec b Hwf x y g c0 Hc Hg) as [_ Hpr].
  pose proof (canon_of_is_cell _ _ _ _ Hc) as Hcell.
  unfold safe_unpressed. change (cells_of (press g b)) with (cells_of b).
  apply (filter_remove_one _ _ _ c0).
  - apply NoDup_candidates.
  - by apply elem_of_cells_of.
  - done.
  - rewrite Hpr, decide_True by done. by intros [_ ?].
  - intros c Hcc%elem_of_cells_of Hne.
    change (mine_at (press g b) c) with (mine_at b c).
    by rewrite Hpr, decide_False by done.
Qed.

Lemma press_step_evolves b b' : wf_board b → press_step b b' → evolves b b'.
Proof.
  intros Hwf Hstep. destruct Hstep as [b x y g Hb Hp Hf Hm Hg|b x y Hb Hp Hf Hm].
  - destruct (guards_canon _ _ _ _ _ _ Hwf Hp Hf Hm) as (c0 & Hc & Hcell & Hp0 & Hf0 & Hm0).
    destruct (press_spec b Hwf x y g c0 Hc Hg) as [Hwf' Hpr].
    pose proof (press_safe_unpressed _ _ _ _ _ Hwf Hc Hp0 Hm0 Hg) as Hlen.
    split; try done.
    + intros c Hcc Hpc. rewrite Hpr by done. by case_decide.
    + intros c Hcc Hpc. rewrite Hpr by done. case_decide; [by subst|congruence].
    + cbn [remaining press with_remaining]. lia.
    + lia.
    + congruence.
  - split; try done.
    + by destruct Hwf.
    + intros c _ Hp1 Hp2. change (pressed_at b c = true) in Hp2. congruence.
    + congruence.
Qed.

Lemma steps_evolves b b' : wf_board b → rtc press_step b b' → evolves b b'.
Proof.
  intros Hwf Hsteps. induction Hsteps as [b|b1 b2 b3 Hstep _ IH].
  - by apply evolves_refl.
  - pose proof (press_step_evolves _ _ Hwf Hstep) as H12.
    eapply evolves_trans; [done|]. apply IH, (ev_wf _ _ H12).
Qed.

Lemma click_fuel_evolves fuel x y b b' :
  wf_board b → outcome_board (click_fuel fuel x y b) = Some b' → evolves b b'.
Proof. intros Hwf Hrun. by eapply steps_evolves, click_fuel_steps. Qed.

Lemma click_neighbors_evolves fuel ns acc b b' :
  wf_board b → outcome_board (click_neighbors fuel ns acc b) = Some b' → evolves b b'.
Proof.
  intros Hwf Hrun. eapply steps_evolves, click_neighbors_steps; [done| |done].
  intros. by eapply click_fuel_steps.
Qed.

(** ** [click] returns *)

Lemma in_bounds_is_cell b x y : in_bounds b x y = true ↔ is_cell b (x, y).
Proof.
  unfold in_bounds, is_cell. rewrite andb_true_iff, !bool_decide_eq_true. done.
Qed.

(** How a call of [click] ends when it has fuel for every block that can
    still be pressed: it returns, unless the coordinate is out of the list
    range on a board that is not bombed, where it raises at once. *)
Definition click_ends (x y : Z) (b : Board) (o : outcome (list triple)) : Prop :=
  match o with
  | Ok _ _ => _bombed b = true ∨ is_Some (canon_of b x y)
  | IndexError b' => b' = b ∧ _bombed b = false ∧ canon_of b x y = None
  | OutOfFuel => False
  end.

Lemma click_neighbors_returns fuel
    (IH : ∀ x y b, wf_board b → (length (safe_unpressed b) < fuel)%nat →
                   click_ends x y b (click_fuel fuel x y b)) :
  ∀ ns acc b, wf_board b → (length (safe_unpressed b) < fuel)%nat →
    ∃ l b', click_neighbors fuel ns acc b = Ok (acc ++ l) b'.
Proof.
  induction ns as [|[nx ny] ns IHns]; intros acc b Hwf Hfuel.
  - exists [], b. by rewrite app_nil_r.
  - rewrite click_neighbors_cons.
    destruct (in_bounds b nx ny) eqn:Hin; [|by apply IHns].
    apply in_bounds_is_cell, canon_of_cell in Hin. simpl in Hin.
    pose proof (IH nx ny b Hwf Hfuel) as Hends.
    pose proof (click_fuel_evolves fuel nx ny b) as Hev.
    destruct (click_fuel fuel nx ny b) as [r b1|b1|]; simpl in *; [| |done].
    2: { destruct Hends as (_ & _ & Hnone). congruence. }
    specialize (Hev b1 Hwf eq_refl).
    destruct (IHns (acc ++ r) b1) as (l & b' & Hrun).
    { apply Hev. }
    { pose proof (ev_measure _ _ Hev). lia. }
    exists (r ++ l), b'. by rewrite Hrun, app_assoc.
Qed.

Lemma click_fuel_ends fuel : ∀ x y b,
  wf_board b → (length (safe_unpressed b) < fuel)%nat →
  click_ends x y b (click_fuel fuel x y b).
Proof.
  induction fuel as [|fuel IH]; intros x y b Hwf Hfuel; [lia|].
  rewrite click_fuel_S.
  destruct (_bombed b) eqn:Hb; [by left|].
  rewrite get_pressed, get_flagged, get_is_mine by done.
  destruct (canon_of b x y) as [c0|] eqn:Hc; simpl; [|done].
  destruct (pressed_at b c0) eqn:Hp; [by right|].
  destruct (flagged_at b c0) eqn:Hf; [by right|].
  destruct (mine_at b c0) eqn:Hm; [by right|].
  destruct (grid_set_is_Some (pressed b) y x true) as [_ [g Hg]].
  { rewrite get_pressed, Hc by done. eauto. }
  rewrite Hg, get_count, Hc by done. simpl.
  destruct (count_at b c0 =? 0); [|by right].
  destruct (press_spec b Hwf x y g c0 Hc Hg) as [Hwf' _].
  pose proof (press_safe_unpressed _ _ _ _ _ Hwf Hc Hp Hm Hg) as Hlen.
  destruct (click_neighbors_returns fuel IH (neighbors8 x y) [(x, y, count_at b c0)]
              (press g b)) as (l & b' & ->); [done|lia|].
  by right.
Qed.

Lemma safe_unpressed_le b :
  (length (safe_unpressed b)
   < S (S (length (candidates (windowWidth b) (windowHeight b)))))%nat.
Proof.
  unfold safe_unpressed, cells_of.
  pose proof (length_filter (λ c, mine_at b c = false ∧ pressed_at b c = false)
                (candidates (windowWidth b) (windowHeight b))). lia.
Qed.

(** [click] always ends, and ends in an exception only at once. *)
Lemma click_ends_wf x y b : wf_board b → click_ends x y b (click x y b).
Proof. intros Hwf. apply click_fuel_ends; [done|apply safe_unpressed_le]. Qed.

(** Fuel beyond what is needed changes nothing. *)
Lemma click_fuel_enough fuel : ∀ fuel' x y b,
  wf_board b → (length (safe_unpressed b) < fuel)%nat → (fuel ≤ fuel')%nat →
  click_fuel fuel' x y b = click_fuel fuel x y b.
Proof.
  induction fuel as [|fuel IH]; intros fuel' x y b Hwf Hfuel Hle; [lia|].
  destruct fuel' as [|fuel']; [lia|].
  rewrite !click_fuel_S.
  destruct (_bombed b) eqn:Hb; [done|].
  destruct (grid_get (pressed b) y x) as [[]|] eqn:Hp; [done| |done].
  destruct (grid_get (flagged b) y x) as [[]|] eqn:Hf; [done| |done].
  destruct (grid_get (is_mine b) y x) as [[]|] eqn:Hm; [done| |done].
  destruct (grid_set (pressed b) y x true) as [g|] eqn:Hg; [|done].
  destruct (grid_get (neighboring_mine_count b) y x) as [n|]; [|done].
  destruct (n =? 0); [|done].
  destruct (guards_canon _ _ _ _ _ _ Hwf Hp Hf Hm) as (c0 & Hc & Hcell & Hp0 & Hf0 & Hm0).
  destruct (press_spec b Hwf x y g c0 Hc Hg) as [Hwf' _].
  pose proof (press_safe_unpressed _ _ _ _ _ Hwf Hc Hp0 Hm0 Hg) as Hlen.
  assert (length (safe_unpressed (press g b)) < fuel)%nat as Hfuel' by lia.
  generalize (press g b) Hwf' Hfuel'. generalize [(x, y, n)].
  induction (neighbors8 x y) as [|[nx ny] ns IHns]; intros acc b1 Hwf1 Hfuel1; [done|].
  rewrite !click_neighbors_cons.
  destruct (in_bounds b1 nx ny); [|by apply IHns].
  rewrite (IH fuel') by (done || lia).
  pose proof (click_fuel_evolves fuel nx ny b1) as Hev.
  destruct (click_fuel fuel nx ny b1) as [r b2|b2|]; [|done..].
  specialize (Hev b2 Hwf1 eq_refl).
  apply IHns; [apply Hev|]. pose proof (ev_measure _ _ Hev). lia.
Qed.

(** ** The cascade of [click] *)

(** A block that [click] would press: on the board, not pressed, not flagged. *)
Definition avail (b : Board) (c : cell) : Prop :=
  is_cell b c ∧ pressed_at b c = false ∧ flagged_at b c = false.

(** The counts tell the truth about zero: a block counted 0 has no mined
    neighbour.  [create] establishes it ([create_counts_sound]). *)
Definition counts_sound (b : Board) : Prop :=
  ∀ c n, is_cell b c → count_at b c = 0 → n ∈ neighbors8 c.1 c.2 → is_cell b n →
         mine_at b n = false.

(** The blocks the recursion of [click] goes through from [s]: from a block
    counted 0 to each neighbour that can be pressed. *)
Inductive cascade (b : Board) (s : cell) : cell → Prop :=
| cascade_start : cascade b s s
| cascade_next c n :
    cascade b s c → count_at b c = 0 → n ∈ neighbors8 c.1 c.2 → avail b n →
    cascade b s n.

(** What a run of [click] over the blocks [starts], one after the other,
    leaves: [l] lists the blocks pressed by it. *)
Record click_post (b : Board) (starts : list cell) (l : list triple) (b' : Board) : Prop := {
  cp_evolves : evolves b b';
  cp_not_bombed : _bombed b' = false;
  cp_nodup : NoDup l.*1;
  cp_new : ∀ c, c ∈ l.*1 ↔ is_cell b c ∧ pressed_at b c = false ∧ pressed_at b' c = true;
  cp_counts : ∀ t, t ∈ l → t.2 = count_at b t.1;
  cp_closed : ∀ c n, c ∈ l.*1 → count_at b c = 0 → n ∈ neighbors8 c.1 c.2 → is_cell b n →
              pressed_at b' n = true ∨ flagged_at b n = true;
  cp_sound : ∀ c, c ∈ l.*1 → ∃ n, n ∈ starts ∧ avail b n ∧ cascade b n c;
  cp_done : ∀ n, n ∈ starts → is_cell b n → pressed_at b' n = true ∨ flagged_at b n = true
}.

Lemma evolves_avail b b' c : evolves b b' → avail b' c → avail b c.
Proof.
  intros Hev (Hc & Hp & Hf). apply (evolves_is_cell b b') in Hc; [|done].
  split_and!; [done| |by rewrite <- (evolves_flagged_at b b')].
  destruct (pressed_at b c) eqn:Hpb; [|done].
  by rewrite (ev_pressed_mono _ _ Hev c Hc Hpb) in Hp.
Qed.

Lemma evolves_cascade b b' s c : evolves b b' → cascade b' s c → cascade b s c.
Proof.
  intros Hev Hcas. induction Hcas as [|c n _ IH Hz Hn Hav]; [constructor|].
  eapply cascade_next; [done| |done|by eapply evolves_avail].
  by rewrite <- (evolves_count_at b b').
Qed.

Lemma evolves_counts_sound b b' : evolves b b' → counts_sound b → counts_sound b'.
Proof.
  intros Hev Hcs c n Hc Hz Hn Hnc.
  rewrite (evolves_mine_at b b') by done. rewrite (evolves_count_at b b') in Hz by done.
  apply (Hcs c n); [by apply (evolves_is_cell b b')|done|done|by apply (evolves_is_cell b b')].
Qed.

Lemma cascade_via_neighbor b s n c :
  count_at b s = 0 → n ∈ neighbors8 s.1 s.2 → avail b n →
  cascade b n c → cascade b s c.
Proof.
  intros Hz Hn Hav Hcas. induction Hcas as [|c m _ IH Hzc Hm Havm].
  - eapply cascade_next; [constructor|done..].
  - by eapply cascade_next.
Qed.

Lemma click_post_nil b : wf_board b → _bombed b = false → click_post b [] [] b.
Proof.
  intros Hwf Hb. split; try done.
  - by apply evolves_refl.
  - constructor.
  - intros c. split; [by intros ?%elem_of_nil|]. intros (_ & ? & ?). congruence.
  - by intros ? ?%elem_of_nil.
  - by intros ? ? ?%elem_of_nil.
  - by intros ? ?%elem_of_nil.
  - by intros ? ?%elem_of_nil.
Qed.

(** A block that is pressed or flagged already: [click] returns [[]]. *)
Lemma click_post_skip_start b s :
  wf_board b → _bombed b = false →
  pressed_at b s = true ∨ flagged_at b s = true →
  click_post b [s] [] b.
Proof.
  intros Hwf Hb Hs. split; try done.
  - by apply evolves_refl.
  - constructor.
  - intros c. split; [by intros ?%elem_of_nil|]. intros (_ & ? & ?). congruence.
  - by intros ? ?%elem_of_nil.
  - by intros ? ? ?%elem_of_nil.
  - by intros ? ?%elem_of_nil.
  - by intros n ->%list_elem_of_singleton _.
Qed.

(** A neighbour outside the board is passed over. *)
Lemma click_post_skip b n ns l b' :
  ¬ is_cell b n → click_post b ns l b' → click_post b (n :: ns) l b'.
Proof.
  intros Hn [Hev Hb Hnd Hnew Hcnt Hcl Hsound Hdone]. split; try done.
  - intros c Hc. destruct (Hsound c Hc) as (n0 & ? & ?). exists n0. split; [by right|done].
  - intros n0 [->|Hin]%elem_of_cons Hc; [done|by apply Hdone].
Qed.

(** One neighbour, then the others. *)
Lemma click_post_app b n ns l1 l2 b1 b2 :
  click_post b [n] l1 b1 → click_post b1 ns l2 b2 →
  click_post b (n :: ns) (l1 ++ l2) b2.
Proof.
  intros [Hev1 Hb1 Hnd1 Hnew1 Hcnt1 Hcl1 Hsound1 Hdone1]
         [Hev2 Hb2 Hnd2 Hnew2 Hcnt2 Hcl2 Hsound2 Hdone2].
  assert (∀ c, is_cell b1 c ↔ is_cell b c) as Hcell by (intros; by apply evolves_is_cell).
  split.
  - by eapply evolves_trans.
  - done.
  - rewrite fmap_app. apply NoDup_app. split_and!; [done| |done].
    intros c Hc1 Hc2. apply Hnew1 in Hc1 as (_ & _ & Hp). apply Hnew2 in Hc2 as (_ & Hp' & _).
    congruence.
  - intros c. rewrite fmap_app, elem_of_app, Hnew1, Hnew2, Hcell. split.
    + intros [(Hc & Hp & Hp1)|(Hc & Hp1 & Hp2)].
      * split_and!; [done..|]. apply (ev_pressed_mono _ _ Hev2); [by apply Hcell|done].
      * split_and!; [done| |done].
        destruct (pressed_at b c) eqn:Hp; [|done].
        by rewrite (ev_pressed_mono _ _ Hev1 c Hc Hp) in Hp1.
    + intros (Hc & Hp & Hp2). destruct (pressed_at b1 c) eqn:Hp1; [by left|by right].
  - intros t [Ht|Ht]%elem_of_app; [by apply Hcnt1|].
    rewrite (Hcnt2 t Ht). by apply evolves_count_at.
  - intros c m. rewrite fmap_app, elem_of_app. intros [Hc|Hc] Hz Hm Hmc.
    + destruct (Hcl1 c m Hc Hz Hm Hmc) as [Hp|Hf]; [left|by right].
      apply (ev_pressed_mono _ _ Hev2); [by apply Hcell|done].
    + rewrite <- (evolves_flagged_at b b1) by done.
      apply (Hcl2 c m Hc); [by rewrite (evolves_count_at b b1)|done|by apply Hcell].
  - intros c. rewrite fmap_app, elem_of_app. intros [Hc|Hc].
    + destruct (Hsound1 c Hc) as (n0 & ->%list_elem_of_singleton & ?).
      exists n. split; [by left|done].
    + destruct (Hsound2 c Hc) as (n0 & Hin & Hav & Hcas).
      exists n0. split_and!; [by right|by eapply evolves_avail|by eapply evolves_cascade].
  - intros n0 [->|Hin]%elem_of_cons Hc.
    + destruct (Hdone1 n) as [Hp|Hf]; [by left|done| |by right].
      left. apply (ev_pressed_mono _ _ Hev2); [by apply Hcell|done].
    + rewrite <- (evolves_flagged_at b b1) by done.
      apply Hdone2; [done|by apply Hcell].
Qed.

Section Press.
Context (b : Board) (x y : Z) (g : list (list bool)).
Context (Hwf : wf_board b) (Hb : _bombed b = false).
Context (Hav : avail b (x, y)) (Hm : mine_at b (x, y) = false).
Context (Hg : grid_set (pressed b) y x true = Some g).

Lemma press_at c :
  is_cell b c → pressed_at (press g b) c = if decide (c = (x, y)) then true else pressed_at b c.
Proof.
  destruct Hav as (Hc & _). apply canon_of_cell in Hc.
  by apply (press_spec b Hwf x y g (x, y) Hc Hg).
Qed.

Lemma press_evolves : evolves b (press g b).
Proof.
  destruct Hav as (Hc & Hp & Hf).
  apply press_step_evolves; [done|]. apply (step_press b x y); [done| | | |done].
  - by rewrite (get_pressed_cell b Hwf x y), Hp.
  - by rewrite (get_flagged_cell b Hwf x y), Hf.
  - by rewrite (get_is_mine_cell b Hwf x y), Hm.
Qed.

(** A block with a non-zero count: only it is pressed. *)
Lemma click_post_press_leaf :
  count_at b (x, y) ≠ 0 →
  click_post b [(x, y)] [(x, y, count_at b (x, y))] (press g b).
Proof.
  intros Hnz. destruct Hav as (Hc & Hp & Hf). split.
  - apply press_evolves.
  - done.
  - apply NoDup_singleton.
  - intros c. simpl. rewrite list_elem_of_singleton. split.
    + intros ->. by rewrite press_at, decide_True.
    + intros (Hcc & Hpc & Hpc'). rewrite press_at in Hpc' by done.
      case_decide; [done|congruence].
  - by intros t ->%list_elem_of_singleton.
  - intros c n ->%list_elem_of_singleton Hz. done.
  - intros c ->%list_elem_of_singleton. exists (x, y).
    split_and!; [by apply list_elem_of_singleton|done|constructor].
  - intros n ->%list_elem_of_singleton _. left. by rewrite press_at, decide_True.
Qed.

(** A block counted 0: it is pressed, then the run over its neighbours. *)
Lemma click_post_press_zero l b' :
  count_at b (x, y) = 0 →
  click_post (press g b) (neighbors8 x y) l b' →
  click_post b [(x, y)] ((x, y, count_at b (x, y)) :: l) b'.
Proof.
  intros Hz [Hev Hb' Hnd Hnew Hcnt Hcl Hsound Hdone].
  pose proof Hav as (Hc & Hp & Hf). pose proof press_evolves as Hev1.
  assert (pressed_at b' (x, y) = true) as Hpxy.
  { apply (ev_pressed_mono _ _ Hev); [done|]. by rewrite press_at, decide_True. }
  split.
  - by eapply evolves_trans.
  - done.
  - rewrite fmap_cons. apply NoDup_cons. split; [|done].
    intros (_ & Hpc & _)%Hnew. by rewrite press_at, decide_True in Hpc.
  - intros c. rewrite fmap_cons, elem_of_cons, Hnew. simpl. split.
    + intros [->|(Hcc & Hpc & Hpc')]; [done|].
      split_and!; [done| |done]. rewrite press_at in Hpc by done.
      by case_decide.
    + intros (Hcc & Hpc & Hpc'). destruct (decide (c = (x, y))) as [|Hne]; [by left|right].
      split_and!; [done| |done]. by rewrite press_at, decide_False.
  - intros t [->|Ht]%elem_of_cons; [done|]. by apply Hcnt.
  - intros c n. rewrite fmap_cons, elem_of_cons. simpl.
    intros [->|Hin] Hzc Hn Hnc.
    + by apply Hdone.
    + by apply (Hcl c n).
  - intros c. rewrite fmap_cons, elem_of_cons. simpl. intros [->|Hin].
    + exists (x, y). split_and!; [by apply list_elem_of_singleton|done|constructor].
    + destruct (Hsound c Hin) as (n & Hn & Havn & Hcas).
      exists (x, y). split_and!; [by apply list_elem_of_singleton|done|].
      apply (cascade_via_neighbor b (x, y) n); [done|done|by eapply evolves_avail|].
      by eapply evolves_cascade.
  - intros n ->%list_elem_of_singleton _. by left.
Qed.
End Press.

Lemma click_neighbors_cascade fuel
    (IH : ∀ x y b, wf_board b → counts_sound b → _bombed b = false →
            (length (safe_unpressed b) < fuel)%nat →
            is_cell b (x, y) → mine_at b (x, y) = false →
            ∃ l b', click_fuel fuel x y b = Ok l b' ∧ click_post b [(x, y)] l b') :
  ∀ ns acc b, wf_board b → counts_sound b → _bombed b = false →
    (length (safe_unpressed b) < fuel)%nat →
    (∀ n, n ∈ ns → is_cell b n → mine_at b n = false) →
    ∃ l b', click_neighbors fuel ns acc b = Ok (acc ++ l) b' ∧ click_post b ns l b'.
Proof.
  induction ns as [|[nx ny] ns IHns]; intros acc b Hwf Hcs Hb Hfuel Hsafe.
  - exists [], b. rewrite app_nil_r. split; [done|by apply click_post_nil].
  - rewrite click_neighbors_cons.
    destruct (in_bounds b nx ny) eqn:Hin.
    + apply in_bounds_is_cell in Hin.
      destruct (IH nx ny b) as (l1 & b1 & -> & Hpost1); [done..|by apply Hsafe; [left|]|].
      pose proof (cp_evolves _ _ _ _ Hpost1) as Hev1.
      destruct (IHns (acc ++ l1) b1) as (l2 & b2 & -> & Hpost2).
      * apply Hev1.
      * by eapply evolves_counts_sound.
      * apply Hpost1.
      * pose proof (ev_measure _ _ Hev1). lia.
      * intros n Hn Hc. rewrite (evolves_mine_at b b1) by done.
        apply Hsafe; [by right|by apply (evolves_is_cell b b1)].
      * exists (l1 ++ l2), b2. rewrite app_assoc. split; [done|].
        by eapply click_post_app.
    + destruct (IHns acc b) as (l & b' & -> & Hpost); [done..| |].
      { intros n Hn. apply Hsafe. by right. }
      exists l, b'. split; [done|]. apply click_post_skip; [|done].
      intros Hc%in_bounds_is_cell. congruence.
Qed.

(** [click] on a block of the board that is not mined, on a board that is
    not bombed: it returns, and what it pressed is the cascade. *)
Lemma click_fuel_cascade fuel : ∀ x y b,
  wf_board b → counts_sound b → _bombed b = false →
  (length (safe_unpressed b) < fuel)%nat →
  is_cell b (x, y) → mine_at b (x, y) = false →
  ∃ l b', click_fuel fuel x y b = Ok l b' ∧ click_post b [(x, y)] l b'.
Proof.
  induction fuel as [|fuel IH]; intros x y b Hwf Hcs Hb Hfuel Hc Hm; [lia|].
  rewrite click_fuel_S, Hb.
  rewrite (get_pressed_cell b Hwf x y), (get_flagged_cell b Hwf x y),
          (get_is_mine_cell b Hwf x y), Hm by done.
  destruct (pressed_at b (x, y)) eqn:Hp.
  { exists [], b. split; [done|]. apply click_post_skip_start; auto. }
  destruct (flagged_at b (x, y)) eqn:Hf.
  { exists [], b. split; [done|]. apply click_post_skip_start; auto. }
  destruct (grid_set_is_Some (pressed b) y x true) as [_ [g Hg]].
  { rewrite (get_pressed_cell b Hwf x y) by done. eauto. }
  rewrite Hg, (get_count_cell b Hwf x y) by done.
  assert (avail b (x, y)) as Hav by done.
  destruct (count_at b (x, y) =? 0) eqn:Hz.
  - apply Z.eqb_eq in Hz.
    pose proof (press_evolves b x y g Hwf Hb Hav Hm Hg) as Hev1.
    pose proof (press_safe_unpressed b x y g (x, y) Hwf (canon_of_cell b (x, y) Hc) Hp Hm Hg)
      as Hlen.
    destruct (click_neighbors_cascade fuel IH (neighbors8 x y) [(x, y, count_at b (x, y))]
                (press g b)) as (l & b' & -> & Hpost).
    + apply Hev1.
    + by eapply evolves_counts_sound.
    + done.
    + lia.
    + intros n Hn Hnc. change (mine_at (press g b) n) with (mine_at b n).
      by apply (Hcs (x, y) n).
    + exists ((x, y, count_at b (x, y)) :: l), b'. split; [done|].
      by apply (click_post_press_zero b x y g).
  - apply Z.eqb_neq in Hz.
    exists [(x, y, count_at b (x, y))], (press g b). split; [done|].
    by apply (click_post_press_leaf b x y g).
Qed.

(** ** [create]: where the mines go *)

(** The candidates [place_mines] turns into mines, when it starts with
    [assigned] already counted: the candidates outside the corners, up to
    the one that makes the count equal [m]; all of them when no count does. *)
Definition placed (w h m : Z) (cands : list cell) (assigned : Z) : list cell :=
  let elig := filter (λ c, in_corner w h c.1 c.2 = false) cands in
  if decide (assigned < m) then take (Z.to_nat (m - assigned)) elig else elig.

Lemma placed_nil w h m a : placed w h m [] a = [].
Proof. unfold placed. rewrite filter_nil. case_decide; [by rewrite take_nil|done]. Qed.

Lemma placed_cons_corner w h m x y cands a :
  in_corner w h x y = true → placed w h m ((x, y) :: cands) a = placed w h m cands a.
Proof.
  intros Hc. unfold placed. rewrite filter_cons_False; [done|]. simpl. by rewrite Hc.
Qed.

Lemma placed_cons_stop w h m x y cands a :
  in_corner w h x y = false → a + 1 = m → placed w h m ((x, y) :: cands) a = [(x, y)].
Proof.
  intros Hc Ha. unfold placed. rewrite filter_cons_True by done.
  rewrite decide_True by lia. replace (Z.to_nat (m - a)) with 1%nat by lia.
  simpl. by rewrite take_0.
Qed.

Lemma placed_cons_go w h m x y cands a :
  in_corner w h x y = false → a + 1 ≠ m →
  placed w h m ((x, y) :: cands) a = (x, y) :: placed w h m cands (a + 1).
Proof.
  intros Hc Ha. unfold placed. rewrite filter_cons_True by done.
  destruct (decide (a < m)).
  - rewrite decide_True by lia.
    replace (Z.to_nat (m - a)) with (S (Z.to_nat (m - (a + 1)))) by lia. done.
  - by rewrite decide_False by lia.
Qed.

Lemma place_mines_cons x y rest a b :
  place_mines ((x, y) :: rest) a b =
  if in_corner (windowWidth b) (windowHeight b) x y then place_mines rest a b else
  match grid_set (is_mine b) y x true with
  | None => IndexError b
  | Some g =>
    if bool_decide (a + 1 = mines b) then Ok tt (with_is_mine g b)
    else place_mines rest (a + 1) (with_is_mine g b)
  end.
Proof.
  cbn [place_mines]. unfold bind, read, store, ret. cbv beta iota.
  destruct (in_corner _ _ x y); [done|].
  destruct (grid_set (is_mine b) y x true) as [g|]; [|done].
  cbn [mbind option_bind]. cbv beta iota.
  change (mines (with_is_mine g b)) with (mines b).
  by destruct (bool_decide (a + 1 = mines b)).
Qed.

Lemma with_is_mine_id b : with_is_mine (is_mine b) b = b.
Proof. by destruct b. Qed.

Lemma place_mines_spec cands : ∀ a b,
  wf_board b → (∀ c, c ∈ cands → is_cell b c) →
  ∃ g, place_mines cands a b = Ok tt (with_is_mine g b) ∧
       wf_board (with_is_mine g b) ∧
       ∀ c, is_cell b c →
         mine_at (with_is_mine g b) c =
         if decide (c ∈ placed (windowWidth b) (windowHeight b) (mines b) cands a)
         then true else mine_at b c.
Proof.
  induction cands as [|[x y] cands IH]; intros a b Hwf Hin.
  - exists (is_mine b). rewrite with_is_mine_id. split_and!; [done..|].
    intros c _. rewrite placed_nil. rewrite decide_False; [done|]. apply not_elem_of_nil.
  - rewrite place_mines_cons.
    destruct (in_corner _ _ x y) eqn:Hcorner.
    { destruct (IH a b Hwf) as (g & Hg & Hwf' & Hm); [intros; apply Hin; by right|].
      exists g. split_and!; [done..|]. intros c Hc. by rewrite placed_cons_corner, Hm. }
    assert (is_cell b (x, y)) as Hxy by (apply Hin; by left).
    destruct (grid_set_is_Some (is_mine b) y x true) as [_ [g Hg]].
    { rewrite (get_is_mine_cell b Hwf x y) by done. eauto. }
    rewrite Hg.
    destruct (grid_set_spec _ _ _ _ _ _ _ (wf_is_mine _ Hwf) Hg) as (Hs & c0 & Hc0 & Hget).
    change (canon _ _ x y) with (canon_of b x y) in Hc0.
    pose proof (canon_of_cell b (x, y) Hxy) as Hcxy. simpl in Hcxy.
    rewrite Hcxy in Hc0. injection Hc0 as <-.
    assert (wf_board (with_is_mine g b)) as Hwf1 by (destruct Hwf; by split).
    assert (∀ c, is_cell b c →
              mine_at (with_is_mine g b) c = if decide (c = (x, y)) then true else mine_at b c)
      as Hm1.
    { intros [cx cy] [Hcx Hcy]. unfold mine_at. simpl in *.
      rewrite Hget by lia. by repeat case_decide. }
    case_bool_decide as Hstop.
    + exists g. split_and!; [done..|]. intros c Hc.
      rewrite placed_cons_stop, Hm1 by done.
      destruct (decide (c = (x, y))) as [->|Hne].
      * rewrite decide_True; [done|]. by apply list_elem_of_singleton.
      * rewrite decide_False; [done|]. by rewrite list_elem_of_singleton.
    + destruct (IH (a + 1) (with_is_mine g b) Hwf1) as (g' & Hg' & Hwf' & Hm').
      { intros c Hc. apply (Hin c). by right. }
      exists g'. split_and!; [done..|]. intros c Hc.
      change (with_is_mine g' (with_is_mine g b)) with (with_is_mine g' b) in Hm'.
      rewrite placed_cons_go by done. rewrite (Hm' c Hc).
      change (mines (with_is_mine g b)) with (mines b).
      change (windowWidth (with_is_mine g b)) with (windowWidth b).
      change (windowHeight (with_is_mine g b)) with (windowHeight b).
      rewrite Hm1 by done.
      destruct (decide (c = (x, y))) as [->|Hne].
      * rewrite (decide_True (P := (_ ∈ _ :: _))); [|by left]. by case_decide.
      * destruct (decide (c ∈ placed _ _ _ cands (a + 1))) as [Hp|Hp].
        -- rewrite decide_True; [done|by right].
        -- rewrite decide_False; [done|]. by intros [?|?]%elem_of_cons.
Qed.

(** ** [create]: the counts *)

(** The relation between the board before and after increments of counts. *)
Record bumped (b b' : Board) : Prop := {
  bu_rest : with_count (neighboring_mine_count b) b' = b;
  bu_wf : wf_board b';
  bu_mono : ∀ c, is_cell b c → count_at b c ≤ count_at b' c
}.

Lemma with_count_id b : with_count (neighboring_mine_count b) b = b.
Proof. by destruct b. Qed.

Lemma bumped_refl b : wf_board b → bumped b b.
Proof. intros Hwf. split; [apply with_count_id|done|intros; lia]. Qed.

Lemma bumped_fields b b' :
  bumped b b' →
  windowWidth b' = windowWidth b ∧ windowHeight b' = windowHeight b ∧
  mines b' = mines b ∧ pressed b' = pressed b ∧ flagged b' = flagged b ∧
  is_mine b' = is_mine b ∧ _bombed b' = _bombed b ∧ remaining b' = remaining b ∧
  flags_remaining b' = flags_remaining b.
Proof. intros [Hrest _ _]. rewrite <- Hrest. by destruct b'. Qed.

Lemma bumped_is_cell b b' c : bumped b b' → is_cell b' c ↔ is_cell b c.
Proof.
  intros (Hw & Hh & _)%bumped_fields. unfold is_cell. by rewrite Hw, Hh.
Qed.

Lemma bumped_mine_at b b' c : bumped b b' → mine_at b' c = mine_at b c.
Proof. intros (_ & _ & _ & _ & _ & Hm & _)%bumped_fields. unfold mine_at. by rewrite Hm. Qed.

Lemma bumped_trans b1 b2 b3 : bumped b1 b2 → bumped b2 b3 → bumped b1 b3.
Proof.
  intros H12 H23. split.
  - destruct H12 as [<- _ _], H23 as [<- _ _]. by destruct b3.
  - apply H23.
  - intros c Hc. etrans; [by apply (bu_mono _ _ H12)|].
    apply (bu_mono _ _ H23). by apply (bumped_is_cell b1 b2).
Qed.

Lemma bump_list_cons nx ny ns b :
  bump_list ((nx, ny) :: ns) b =
  if in_bounds b nx ny then
    match grid_get (neighboring_mine_count b) ny nx with
    | None => IndexError b
    | Some n =>
      match grid_set (neighboring_mine_count b) ny nx (n + 1) with
      | None => IndexError b
      | Some g => bump_list ns (with_count g b)
      end
    end
  else bump_list ns b.
Proof.
  unfold bump_list. cbn [for_each]. unfold bind, read, index, store, ret. cbv beta iota.
  destruct (in_bounds b nx ny); [|done].
  destruct (grid_get (neighboring_mine_count b) ny nx) as [n|]; [|done].
  cbv beta iota.
  by destruct (grid_set (neighboring_mine_count b) ny nx (n + 1)) as [g|].
Qed.

(** One increment. *)
Lemma bump_one b nx ny g :
  wf_board b → is_cell b (nx, ny) →
  grid_set (neighboring_mine_count b) ny nx (count_at b (nx, ny) + 1) = Some g →
  bumped b (with_count g b) ∧ count_at (with_count g b) (nx, ny) = count_at b (nx, ny) + 1.
Proof.
  intros Hwf Hc Hg.
  destruct (grid_set_spec _ _ _ _ _ _ _ (wf_count _ Hwf) Hg) as (Hs & c0 & Hc0 & Hget).
  change (canon _ _ nx ny) with (canon_of b nx ny) in Hc0.
  pose proof (canon_of_cell b (nx, ny) Hc) as Hcxy. simpl in Hcxy.
  rewrite Hcxy in Hc0. injection Hc0 as <-.
  assert (∀ c, is_cell b c →
            count_at (with_count g b) c =
            if decide (c = (nx, ny)) then count_at b (nx, ny) + 1 else count_at b c) as Hcnt.
  { intros [cx cy] [Hcx Hcy]. unfold count_at at 1. simpl in *.
    rewrite Hget by lia. by repeat case_decide. }
  split; [split|].
  - by destruct b.
  - destruct Hwf. by split.
  - intros c Hcc. rewrite Hcnt by done. case_decide; [subst|]; lia.
  - by rewrite Hcnt, decide_True.
Qed.

Lemma bump_list_spec ns : ∀ b,
  wf_board b →
  ∃ b', bump_list ns b = Ok tt b' ∧ bumped b b' ∧
        ∀ n, n ∈ ns → is_cell b n → count_at b n + 1 ≤ count_at b' n.
Proof.
  induction ns as [|[nx ny] ns IH]; intros b Hwf.
  - exists b. split_and!; [done|by apply bumped_refl|by intros ? ?%elem_of_nil].
  - rewrite bump_list_cons.
    destruct (in_bounds b nx ny) eqn:Hin.
    + apply in_bounds_is_cell in Hin.
      rewrite (get_count_cell b Hwf nx ny) by done.
      destruct (grid_set_is_Some (neighboring_mine_count b) ny nx (count_at b (nx, ny) + 1))
        as [_ [g Hg]].
      { rewrite (get_count_cell b Hwf nx ny) by done. eauto. }
      rewrite Hg. destruct (bump_one b nx ny g Hwf Hin Hg) as [Hbu Hone].
      destruct (IH (with_count g b)) as (b' & Hrun & Hbu' & Hns); [apply Hbu|].
      exists b'. split_and!; [done|by eapply bumped_trans|].
      intros n [->|Hn]%elem_of_cons Hc.
      * rewrite <- Hone. apply (bu_mono _ _ Hbu'). by apply (bumped_is_cell b).
      * etrans; [|apply Hns; [done|by apply (bumped_is_cell b)]].
        pose proof (bu_mono _ _ Hbu n Hc). lia.
    + destruct (IH b Hwf) as (b' & Hrun & Hbu' & Hns).
      exists b'. split_and!; [done..|].
      intros n [->|Hn]%elem_of_cons Hc; [|by apply Hns].
      apply in_bounds_is_cell in Hc. congruence.
Qed.

Lemma count_list_cons x y cs b :
  count_list ((x, y) :: cs) b =
  match grid_get (is_mine b) y x with
  | None => IndexError b
  | Some true =>
    match bump_neighbors x y b with
    | Ok _ b' => count_list cs b'
    | IndexError b' => IndexError b'
    | OutOfFuel => OutOfFuel
    end
  | Some false => count_list cs b
  end.
Proof.
  unfold count_list. cbn [for_each]. unfold bind, read, index, store, ret. cbv beta iota.
  destruct (grid_get (is_mine b) y x) as [[]|]; [|done..].
  cbv beta iota. by destruct (bump_neighbors x y b) as [[] ?|?|].
Qed.

Lemma count_list_spec cs : ∀ b,
  wf_board b → (∀ c, c ∈ cs → is_cell b c) →
  ∃ b', count_list cs b = Ok tt b' ∧ bumped b b' ∧
        ∀ c n, c ∈ cs → mine_at b c = true → n ∈ neighbors8 c.1 c.2 → is_cell b n →
               count_at b n + 1 ≤ count_at b' n.
Proof.
  induction cs as [|[x y] cs IH]; intros b Hwf Hin.
  - exists b. split_and!; [done|by apply bumped_refl|by intros ? ? ?%elem_of_nil].
  - rewrite count_list_cons.
    assert (is_cell b (x, y)) as Hxy by (apply Hin; by left).
    rewrite (get_is_mine_cell b Hwf x y) by done.
    destruct (mine_at b (x, y)) eqn:Hm.
    + destruct (bump_list_spec (neighbors8 x y) b Hwf) as (b1 & Hrun1 & Hbu1 & Hns).
      unfold bump_neighbors. rewrite Hrun1.
      destruct (IH b1) as (b' & Hrun & Hbu' & Hrest); [apply Hbu1| |].
      { intros c Hc. apply (bumped_is_cell b b1); [done|]. apply Hin. by right. }
      exists b'. split_and!; [done|by eapply bumped_trans|].
      intros c n [->|Hc]%elem_of_cons Hmc Hn Hnc.
      * etrans; [by apply Hns|]. apply (bu_mono _ _ Hbu'). by apply (bumped_is_cell b b1).
      * etrans; [|apply (Hrest c n); [done| |done|by apply (bumped_is_cell b b1)]].
        -- pose proof (bu_mono _ _ Hbu1 n Hnc). lia.
        -- by rewrite (bumped_mine_at b b1).
    + destruct (IH b Hwf) as (b' & Hrun & Hbu' & Hrest); [intros; apply Hin; by right|].
      exists b'. split_and!; [done..|].
      intros c n [->|Hc]%elem_of_cons Hmc Hn Hnc; [simpl in *; congruence|].
      by apply (Hrest c n).
Qed.

Lemma neighbors8_sym (c n : cell) : n ∈ neighbors8 c.1 c.2 → c ∈ neighbors8 n.1 n.2.
Proof.
  destruct c as [cx cy], n as [nx ny]. unfold neighbors8. simpl.
  rewrite !elem_of_cons, !elem_of_nil.
  intros H. repeat destruct H as [H|H]; try done; injection H as -> ->.
  all: repeat (first [left; f_equal; lia | right]).
Qed.

(** ** [create], as a whole *)

(** The board [create] starts its loops from. *)
Definition fresh (b : Board) : Board :=
  let w := windowWidth b in
  let h := windowHeight b in
  mkBoard w h (mines b)
          (grid_make h w false) (grid_make h w false) (grid_make h w false)
          (grid_make h w 0) false (w * h - mines b) (mines b).

Lemma wf_fresh b : wf_board (fresh b).
Proof. split; apply shaped_grid_make. Qed.

Lemma fresh_at b c :
  is_cell b c →
  pressed_at (fresh b) c = false ∧ flagged_at (fresh b) c = false ∧
  mine_at (fresh b) c = false ∧ count_at (fresh b) c = 0.
Proof.
  intros [Hx Hy]. unfold pressed_at, flagged_at, mine_at, count_at. simpl.
  by rewrite !grid_get_make by done.
Qed.

(** What [create] leaves, for the shuffled candidates [cands]. *)
Record created (w h m : Z) (cands : list cell) (b : Board) : Prop := {
  cr_width : windowWidth b = w;
  cr_height : windowHeight b = h;
  cr_mines : mines b = m;
  cr_wf : wf_board b;
  cr_counts : counts_sound b;
  cr_pressed : ∀ c, is_cell b c → pressed_at b c = false;
  cr_flagged : ∀ c, is_cell b c → flagged_at b c = false;
  cr_bombed : _bombed b = false;
  cr_remaining : remaining b = w * h - m;
  cr_flags_remaining : flags_remaining b = m;
  cr_mine : ∀ c, is_cell b c → (mine_at b c = true ↔ c ∈ placed w h m cands 0)
}.

Section CreateSpec.
Variable shuffle : list cell → list cell.
Hypothesis shuffle_perm : ∀ l, shuffle l ≡ₚ l.

Lemma create_unfold b :
  create shuffle b =
  match place_mines (shuffle (candidates (windowWidth b) (windowHeight b))) 0 (fresh b) with
  | Ok _ b1 => count_list (candidates (windowWidth b1) (windowHeight b1)) b1
  | IndexError b1 => IndexError b1
  | OutOfFuel => OutOfFuel
  end.
Proof.
  unfold create, count_neighbors, bind, read, modify. cbv beta iota.
  fold (fresh b).
  change (windowWidth (fresh b)) with (windowWidth b).
  change (windowHeight (fresh b)) with (windowHeight b).
  by destruct (place_mines _ 0 (fresh b)).
Qed.

(** [create] never raises, whatever the dimensions and the number of mines. *)
Lemma create_spec w h m :
  ∃ b, new_board shuffle w h m = Ok tt b ∧ created w h m (shuffle (candidates w h)) b.
Proof.
  unfold new_board. rewrite create_unfold.
  set (b0 := Board_init w h m).
  destruct (place_mines_spec (shuffle (candidates w h)) 0 (fresh b0) (wf_fresh b0))
    as (g & Hrun & Hwf1 & Hmine).
  { intros c Hc. rewrite shuffle_perm in Hc. by apply elem_of_candidates in Hc. }
  change (windowWidth b0) with w. change (windowHeight b0) with h.
  rewrite Hrun. set (b1 := with_is_mine g (fresh b0)) in *.
  change (windowWidth b1) with w. change (windowHeight b1) with h.
  destruct (count_list_spec (candidates w h) b1 Hwf1) as (b & Hrun2 & Hbu & Hcnt).
  { intros c Hc. by apply elem_of_candidates in Hc. }
  exists b. split; [done|].
  destruct (bumped_fields _ _ Hbu) as (Hw & Hh & Hm & Hp & Hf & Hmi & Hb & Hr & Hfr).
  assert (∀ c, is_cell b c ↔ is_cell b0 c) as Hcell.
  { intros c. unfold is_cell. by rewrite Hw, Hh. }
  split; try done.
  - apply Hbu.
  - intros c n Hc Hz Hn Hnc. destruct (mine_at b n) eqn:Hmn; [exfalso|done].
    rewrite (bumped_mine_at b1 b) in Hmn by done.
    assert (count_at b1 c + 1 ≤ count_at b c) as Hle.
    { apply (Hcnt n c); [|done|by apply neighbors8_sym|by apply Hcell].
      apply elem_of_candidates. by apply Hcell in Hnc. }
    destruct (fresh_at b0 c) as (_ & _ & _ & Hz0); [by apply Hcell|].
    change (count_at b1 c) with (count_at (fresh b0) c) in Hle. lia.
  - intros c Hc. unfold pressed_at. rewrite Hp.
    by destruct (fresh_at b0 c) as (? & _); [by apply Hcell|].
  - intros c Hc. unfold flagged_at. rewrite Hf.
    by destruct (fresh_at b0 c) as (_ & ? & _); [by apply Hcell|].
  - intros c Hc. rewrite (bumped_mine_at b1 b) by done.
    rewrite (Hmine c) by by apply Hcell.
    change (placed _ _ _ _ 0) with (placed w h m (shuffle (candidates w h)) 0).
    destruct (fresh_at b0 c) as (_ & _ & -> & _); [by apply Hcell|].
    case_decide; split; done.
Qed.

Lemma new_board_created w h m b :
  new_board shuffle w h m = Ok tt b → created w h m (shuffle (candidates w h)) b.
Proof.
  intros Hnew. destruct (create_spec w h m) as (b' & Hnew' & Hcr). congruence.
Qed.

(** The candidates outside the corners, in shuffled order. *)
Lemma placed_elem w h m (c : cell) :
  c ∈ placed w h m (shuffle (candidates w h)) 0 →
  c ∈ candidates w h ∧ in_corner w h c.1 c.2 = false.
Proof.
  unfold placed. intros Hc.
  assert (c ∈ filter (λ c, in_corner w h c.1 c.2 = false) (shuffle (candidates w h)))
    as Hf.
  { case_decide; [|done]. by eapply subseteq_take. }
  apply list_elem_of_filter in Hf as [? Hin]. by rewrite shuffle_perm in Hin.
Qed.

Lemma NoDup_placed w h m : NoDup (placed w h m (shuffle (candidates w h)) 0).
Proof.
  assert (NoDup (filter (λ c, in_corner w h c.1 c.2 = false) (shuffle (candidates w h))))
    as Hnd.
  { apply NoDup_filter. rewrite shuffle_perm. apply NoDup_candidates. }
  unfold placed. case_decide; [|done].
  eapply sublist_NoDup; [done|apply sublist_take].
Qed.

Lemma length_placed w h m :
  length (placed w h m (shuffle (candidates w h)) 0) =
  if decide (0 < m) then (Z.to_nat m `min` length (eligible w h))%nat
  else length (eligible w h).
Proof.
  unfold placed, eligible.
  assert (length (filter (λ c, in_corner w h c.1 c.2 = false) (shuffle (candidates w h)))
          = length (filter (λ c, in_corner w h c.1 c.2 = false) (candidates w h))) as Hlen.
  { by rewrite shuffle_perm. }
  case_decide; [|done]. rewrite length_take, Hlen. f_equal. lia.
Qed.

(** The number of mines [create] places. *)
Lemma created_mine_count w h m b :
  created w h m (shuffle (candidates w h)) b →
  mine_count b =
  if decide (0 < m) then (Z.to_nat m `min` length (eligible w h))%nat
  else length (eligible w h).
Proof.
  intros Hcr. rewrite <- length_placed. unfold mine_count.
  apply Permutation_length, NoDup_Permutation.
  - apply NoDup_filter, NoDup_candidates.
  - apply NoDup_placed.
  - intros c. rewrite list_elem_of_filter, elem_of_cells_of. split.
    + intros [Hm Hc]. by apply (cr_mine _ _ _ _ _ Hcr).
    + intros Hc. pose proof (placed_elem _ _ _ _ Hc) as [Hin _].
      assert (is_cell b c) as Hcell.
      { apply elem_of_candidates in Hin. unfold is_cell.
        by rewrite (cr_width _ _ _ _ _ Hcr), (cr_height _ _ _ _ _ Hcr). }
      split; [|done]. by apply (cr_mine _ _ _ _ _ Hcr).
Qed.
End CreateSpec.

(** ** [flag] *)

(** The board after [flag] toggled the block at [(x, y)]. *)
Definition toggled (g : list (list bool)) (f : bool) (b : Board) : Board :=
  with_flags_remaining (flags_remaining b + (if f then 1 else -1)) (with_flagged g b).

Lemma flag_spec x y b :
  wf_board b →
  match canon_of b x y with
  | None => flag x y b = if _bombed b then Ok tt b else IndexError b
  | Some c =>
    if _bombed b || pressed_at b c then flag x y b = Ok tt b
    else ∃ g, flag x y b = Ok tt (toggled g (flagged_at b c) b) ∧
              wf_board (toggled g (flagged_at b c) b) ∧
              ∀ c', is_cell b c' →
                flagged_at (toggled g (flagged_at b c) b) c' =
                if decide (c' = c) then negb (flagged_at b c) else flagged_at b c'
  end.
Proof.
  intros Hwf. rewrite flag_unfold, get_pressed, get_flagged by done.
  destruct (canon_of b x y) as [c|] eqn:Hc; simpl; [|by destruct (_bombed b)].
  destruct (_bombed b); [done|]. simpl.
  destruct (pressed_at b c); [done|].
  destruct (grid_set_is_Some (flagged b) y x (negb (flagged_at b c))) as [_ [g Hg]].
  { rewrite get_flagged, Hc by done. eauto. }
  rewrite Hg.
  destruct (grid_set_spec _ _ _ _ _ _ _ (wf_flagged _ Hwf) Hg) as (Hs & c0 & Hc0 & Hget).
  change (canon _ _ x y) with (canon_of b x y) in Hc0. rewrite Hc in Hc0.
  injection Hc0 as <-.
  assert (wf_board (with_flagged g b)) as Hwf1 by (destruct Hwf; by split).
  assert (∀ c', is_cell b c' →
            flagged_at (with_flagged g b) c' =
            if decide (c' = c) then negb (flagged_at b c) else flagged_at b c') as Hfl.
  { intros [cx cy] [Hcx Hcy]. unfold flagged_at at 1. simpl in *.
    rewrite Hget by lia. by repeat case_decide. }
  pose proof (get_flagged (with_flagged g b) Hwf1 x y) as Hget'.
  change (canon_of (with_flagged g b) x y) with (canon_of b x y) in Hget'.
  rewrite Hc in Hget'. simpl in Hget'. change (flagged (with_flagged g b)) with g in Hget'.
  rewrite Hget', Hfl, decide_True, negb_involutive by (done || by eapply canon_of_is_cell).
  exists g. split_and!; [done| |done].
  destruct Hwf1. by split.
Qed.

(** ** Boards a game can reach *)

Section Reachable.
Variable shuffle : list cell → list cell.
Hypothesis shuffle_perm : ∀ l, shuffle l ≡ₚ l.

(** The boards reached from [create] by calls of [click] and [flag], with
    any arguments; a call that raises leaves the board it raised on. *)
Inductive reachable (w h m : Z) : Board → Prop :=
| reach_create b :
    new_board shuffle w h m = Ok tt b → reachable w h m b
| reach_click b x y b' :
    reachable w h m b → outcome_board (click x y b) = Some b' → reachable w h m b'
| reach_flag b x y b' :
    reachable w h m b → outcome_board (flag x y b) = Some b' → reachable w h m b'.

(** What stays true of a board through a game. *)
Record board_inv (w h m : Z) (b : Board) : Prop := {
  inv_width : windowWidth b = w;
  inv_height : windowHeight b = h;
  inv_mines : mines b = m;
  inv_wf : wf_board b;
  inv_counts : counts_sound b;
  inv_pressed_safe : ∀ c, is_cell b c → pressed_at b c = true → mine_at b c = false;
  inv_remaining :
    remaining b - Z.of_nat (length (safe_unpressed b))
    = w * h - m - (Z.of_nat (length (candidates w h)) - Z.of_nat (mine_count b));
  inv_mine_count :
    mine_count b = if decide (0 < m) then (Z.to_nat m `min` length (eligible w h))%nat
                   else length (eligible w h);
  inv_corner : ∀ c, is_cell b c → in_corner w h c.1 c.2 = true → mine_at b c = false
}.

Lemma length_filter_complement {A} (P : A → Prop) `{!∀ x, Decision (P x)} (l : list A) :
  (length (filter P l) + length (filter (λ x, ¬ P x) l) = length l)%nat.
Proof. rewrite <- length_app. by rewrite filter_app_complement. Qed.

Lemma created_inv w h m b :
  created w h m (shuffle (candidates w h)) b → board_inv w h m b.
Proof.
  intros Hcr. pose proof Hcr as [Hw Hh Hm Hwf Hcs Hp Hf Hb Hr Hfr Hmine].
  split; try done.
  - intros c Hc Hpc. by rewrite Hp in Hpc.
  - rewrite Hr.
    pose proof (length_filter_complement (λ c, mine_at b c = true) (cells_of b)) as Hlen.
    fold (mine_count b) in Hlen.
    assert (length (safe_unpressed b)
            = length (filter (λ c, ¬ mine_at b c = true) (cells_of b))) as Hsu.
    { unfold safe_unpressed. apply filter_length_ext. intros c Hc%elem_of_cells_of.
      rewrite (Hp c Hc). destruct (mine_at b c); intuition congruence. }
    assert (length (cells_of b) = length (candidates w h)) as Hcl.
    { unfold cells_of. by rewrite Hw, Hh. }
    rewrite Hcl in Hlen. lia.
  - by apply (created_mine_count shuffle shuffle_perm).
  - intros c Hc Hcorner. destruct (mine_at b c) eqn:Hmc; [|done].
    apply Hmine in Hmc; [|done]. apply (placed_elem shuffle shuffle_perm) in Hmc as [_ ?].
    congruence.
Qed.

Lemma evolves_inv w h m b b' : board_inv w h m b → evolves b b' → board_inv w h m b'.
Proof.
  intros [Hw Hh Hm Hwf Hcs Hps Hr Hmc Hcor] Hev.
  assert (mine_count b' = mine_count b) as Hmc'.
  { unfold mine_count. rewrite (evolves_cells b b') by done.
    apply filter_length_ext. intros c _. by rewrite (evolves_mine_at b b'). }
  split.
  - by rewrite (ev_width _ _ Hev).
  - by rewrite (ev_height _ _ Hev).
  - by rewrite (ev_mines _ _ Hev).
  - apply Hev.
  - by eapply evolves_counts_sound.
  - intros c Hc Hpc. apply (evolves_is_cell b b') in Hc; [|done].
    rewrite (evolves_mine_at b b') by done.
    destruct (pressed_at b c) eqn:Hpb; [by apply Hps|].
    by apply (ev_pressed_new _ _ Hev).
  - rewrite Hmc'. pose proof (ev_remaining _ _ Hev). lia.
  - by rewrite Hmc'.
  - intros c Hc Hcc. apply (evolves_is_cell b b') in Hc; [|done].
    rewrite (evolves_mine_at b b') by done. by apply Hcor.
Qed.

Lemma toggled_inv w h m b g f :
  board_inv w h m b → wf_board (toggled g f b) → board_inv w h m (toggled g f b).
Proof. intros [Hw Hh Hm Hwf Hcs Hps Hr Hmc Hcor] Hwf'. by split. Qed.

Lemma flag_inv w h m b x y b' :
  board_inv w h m b → outcome_board (flag x y b) = Some b' → board_inv w h m b'.
Proof.
  intros Hinv Hrun. pose proof (flag_spec x y b (inv_wf _ _ _ _ Hinv)) as Hspec.
  destruct (canon_of b x y) as [c|].
  - destruct (_bombed b || pressed_at b c).
    + rewrite Hspec in Hrun. by simplify_eq/=.
    + destruct Hspec as (g & Hflag & Hwf' & _). rewrite Hflag in Hrun.
      simplify_eq/=. by apply toggled_inv.
  - rewrite Hspec in Hrun. destruct (_bombed b); by simplify_eq/=.
Qed.

Lemma click_inv w h m b x y b' :
  board_inv w h m b → outcome_board (click x y b) = Some b' → board_inv w h m b'.
Proof.
  intros Hinv Hrun. eapply evolves_inv; [done|].
  eapply click_fuel_evolves; [apply Hinv|done].
Qed.

Lemma reachable_inv w h m b : reachable w h m b → board_inv w h m b.
Proof.
  induction 1 as [b Hnew|b x y b' _ IH Hrun|b x y b' _ IH Hrun].
  - by apply created_inv, new_board_created.
  - by eapply click_inv.
  - by eapply flag_inv.
Qed.
End Reachable.


(** ** The LP solver *)

(** The constraints handed to cvxpy, over the variable [x] of one entry per
    block. *)
Inductive constraint : Type :=
| CTotal (n : Z)                       (* cp.sum(x) == n *)
| CLower                               (* 0 <= x *)
| CUpper                               (* x <= 1 *)
| CSum (cells : list cell) (n : Z)     (* cp.sum([x[c] for c in cells]) == n *)
| CZero (c : cell).                    (* x[c] == 0 *)

(** The state of [MinesweeperLPSolver].  The board it refers to is the one of
    the game and is passed where it is read; [known] is never read. *)
Record Solver := mkSolver {
  constraints : list constraint;
  last_solution : cell → Q;
  clicked : gset cell;
  solver_flagged : gset cell           (* the attribute [flagged] of the solver *)
}.

Definition Qlt_bool (a b : Q) : bool :=
  (Qnum a * Z.pos (Qden b) <? Qnum b * Z.pos (Qden a))%Z.

(** The tolerance [1e-6]. *)
Definition eps : Q := 1 # 1000000.

(** [abs(a - b) < 1e-6] *)
Definition near (a b : Q) : bool := Qlt_bool (Qabs (a - b)) eps.

(** [MinesweeperLPSolver.__init__]: cvxpy and numpy refuse dimensions that
    are not positive (and the division is by zero when one is 0). *)
Definition Solver_init (b : Board) : option Solver :=
  if bool_decide (0 < windowWidth b ∧ 0 < windowHeight b) then
    Some (mkSolver [CTotal (mines b); CLower; CUpper]
                   (λ _, (inject_Z (mines b) / inject_Z (windowHeight b * windowWidth b))%Q)
                   ∅ ∅)
  else None.

(** How the loop of [get_next] over the blocks ends. *)
Inductive scan_result : Type :=
| Early (c : cell)                          (* [return [(i, j)], []] inside the loop *)
| Done (zero_pos one_pos : list cell)       (* the loop ran to its end *)
| TypeError.                                (* arithmetic on a [None] value *)

(** [self.x[i, j].value], when the solve left values [est]. *)
Definition value (est : option (cell → Q)) (c : cell) : option Q :=
  v ← est; Some (v c).

(** The block "Find blocks close enough to 1" of the loop body. *)
Definition flag_check (est : option (cell → Q)) (flagged_set : gset cell)
    (c : cell) (one_pos : list cell) : option (list cell) :=
  if bool_decide (c ∉ flagged_set) then
    v ← value est c; Some (if near v 1 then one_pos ++ [c] else one_pos)
  else Some one_pos.

(** How one turn of the loop body of [get_next] ends. *)
Inductive body_result : Type :=
| BodyReturn                                            (* [return [(i, j)], []] *)
| BodyNext (zero_pos one_pos : list cell) (min_prob : Q) (* on to the next block *)
| BodyRaise.                                            (* arithmetic on [None] *)

(** The body of the loop of [get_next], for the block [c]. *)
Definition scan_body (est : option (cell → Q)) (last : cell → Q)
    (clicked_set flagged_set : gset cell) (c : cell)
    (zero_pos one_pos : list cell) (min_prob : Q) : body_result :=
  let check_flag (_ : unit) :=
    match flag_check est flagged_set c one_pos with
    | Some one_pos' => BodyNext zero_pos one_pos' min_prob
    | None => BodyRaise
    end in
  if bool_decide (c ∉ clicked_set) then
    match value est c with
    | None => BodyRaise
    | Some v =>
      if near v (last c) then BodyReturn
      else if Qlt_bool v min_prob then BodyNext [c] one_pos v
      else if near v min_prob then BodyNext (zero_pos ++ [c]) one_pos min_prob
      else check_flag tt
    end
  else check_flag tt.

(** The loop of [get_next], from the blocks still to visit. *)
Fixpoint scan (est : option (cell → Q)) (last : cell → Q)
    (clicked_set flagged_set : gset cell) (cells : list cell)
    (zero_pos one_pos : list cell) (min_prob : Q) : scan_result :=
  match cells with
  | [] => Done zero_pos one_pos
  | c :: rest =>
    match scan_body est last clicked_set flagged_set c zero_pos one_pos min_prob with
    | BodyReturn => Early c
    | BodyNext zero_pos' one_pos' min_prob' =>
      scan est last clicked_set flagged_set rest zero_pos' one_pos' min_prob'
    | BodyRaise => TypeError
    end
  end.

(** [[(x, y) for x in range(i-1, i+2) for y in range(j-1, j+2) if ...]] of
    [add_constraint]. *)
Definition unknown_neighbors (w h : Z) (clicked_set : gset cell) (i j : Z) : list cell :=
  filter (λ c, 0 ≤ c.1 ∧ 0 ≤ c.2 ∧ c.1 < w ∧ c.2 < h ∧ (c.1 ≠ i ∨ c.2 ≠ j)
               ∧ c ∉ clicked_set)
         (x ← seqZ (i - 1) 3; y ← seqZ (j - 1) 3; [(x, y)]).

(** [MinesweeperLPSolver.add_constraint] *)
Definition add_constraint (b : Board) (i j mine_count : Z) (s : Solver) : Solver :=
  let neighbors := unknown_neighbors (windowWidth b) (windowHeight b) (clicked s) i j in
  mkSolver (constraints s ++ [CSum neighbors mine_count; CZero (i, j)])
           (last_solution s) (clicked s) (solver_flagged s).

Inductive exn : Type := EIndexError | ETypeError | EValueError | EOutOfFuel.

Inductive result (A : Type) : Type :=
| Returned (a : A)
| Raised (e : exn).
Arguments Returned {A} a.
Arguments Raised {A} e.

Section Solve.
(** [prob.solve(warm_start=True)]: the values cvxpy leaves in [x] for a list
    of constraints, [None] when it finds no solution. *)
Variable solve : list constraint → option (cell → Q).

(** [MinesweeperLPSolver.get_next] *)
Definition get_next (b : Board) (s : Solver) : result (Solver * (list cell * list cell)) :=
  let est := solve (constraints s) in
  match scan est (last_solution s) (clicked s) (solver_flagged s)
             (candidates (windowWidth b) (windowHeight b)) [] [] 1%Q with
  | Early c =>
    Returned (mkSolver (constraints s) (last_solution s) ({[c]} ∪ clicked s) (solver_flagged s),
              ([c], []))
  | Done zero_pos one_pos =>
    Returned (mkSolver (constraints s) (last_solution s)
                       (clicked s ∪ list_to_set zero_pos)
                       (solver_flagged s ∪ list_to_set one_pos),
              (zero_pos, one_pos))
  | TypeError => Raised ETypeError
  end.

(** ** The game *)

Record Game := mkGame {
  board : Board;
  solver : Solver;
  _running : bool;
  loop_count : Z
}.

(** [for i, j, mine_count in revealed_squares: self.solver.add_constraint(i, j, mine_count)] *)
Definition add_constraints (b : Board) (revealed : list triple) (s : Solver) : Solver :=
  foldl (λ s '(i, j, mine_count), add_constraint b i j mine_count s) s revealed.

(** The loop of [on_loop] over the blocks to click. *)
Fixpoint click_all (cl : list cell) (b : Board) (s : Solver) : result (Board * Solver) :=
  match cl with
  | [] => Returned (b, s)
  | (x, y) :: rest =>
    match click x y b with
    | Ok revealed_squares b' => click_all rest b' (add_constraints b' revealed_squares s)
    | IndexError _ => Raised EIndexError
    | OutOfFuel => Raised EOutOfFuel
    end
  end.

(** The loop of [on_loop] over the blocks to flag. *)
Definition flag_all (fl : list cell) : M unit :=
  for_each fl (λ '(x, y) _, flag x y) tt.

(** [Game.on_loop] (the time stamp and the progress bar are left out). *)
Definition on_loop (g : Game) : result Game :=
  if _bombed (board g) then
    Returned (mkGame (board g) (solver g) false (loop_count g))
  else
    match get_next (board g) (solver g) with
    | Raised e => Raised e
    | Returned (s, (cl, fl)) =>
      match click_all cl (board g) s with
      | Raised e => Raised e
      | Returned (b, s') =>
        match flag_all fl b with
        | Ok _ b' => Returned (mkGame b' s' (_running g) (loop_count g + 1))
        | IndexError _ => Raised EIndexError
        | OutOfFuel => Raised EOutOfFuel
        end
      end
    end.

(** The triples the calls of [click] of one round return, one list after the
    other, and the board they leave. *)
Definition round_reveals (cl : list cell) : M (list triple) :=
  for_each cl (λ '(x, y) acc, r <- click x y ;; ret (acc ++ r)) [].

End Solve.

(** The two constraints [add_constraint] appends for a triple, on a board of
    width [w] and height [h], when the solver has decided [clicked_set]. *)
Definition constraints_of (w h : Z) (clicked_set : gset cell) (t : triple) : list constraint :=
  [CSum (unknown_neighbors w h clicked_set t.1.1 t.1.2) t.2; CZero t.1].

(** [Game.on_init] (without the display): a new board and a new solver. *)
Definition on_init (shuffle : list cell → list cell) (w h m : Z) : result Game :=
  match new_board shuffle w h m with
  | Ok _ b =>
    match Solver_init b with
    | Some s => Returned (mkGame b s true 0)
    | None => Raised EValueError
    end
  | IndexError _ => Raised EIndexError
  | OutOfFuel => Raised EOutOfFuel
  end.

(** A sequence of calls on a board, as a player or the game loop makes them. *)
Inductive call : Type := Click (x y : Z) | Flag (x y : Z).

Definition do_call (c : call) : M (list triple) :=
  match c with
  | Click x y => click x y
  | Flag x y => flag x y ;;; ret []
  end.

(** The calls one after the other, with what each returned. *)
Fixpoint do_calls (cs : list call) : M (list (list triple)) :=
  match cs with
  | [] => ret []
  | c :: cs' => r <- do_call c ;; rs <- do_calls cs' ;; ret (r :: rs)
  end.

(** ** The region a click on a zero opens, in the words of the specification *)

(** The blocks counted 0 that are 8-connected to [s] through blocks counted 0
    that [click] can press (a pressed or flagged block is not gone through). *)
Inductive zero_region (b : Board) (s : cell) : cell → Prop :=
| zr_start : zero_region b s s
| zr_step c n :
    zero_region b s c → n ∈ neighbors8 c.1 c.2 → avail b n → count_at b n = 0 →
    zero_region b s n.

(** The blocks with a non-zero count next to the region, that [click] can press. *)
Definition border (b : Board) (s c : cell) : Prop :=
  avail b c ∧ count_at b c ≠ 0 ∧ ∃ z, zero_region b s z ∧ c ∈ neighbors8 z.1 z.2.

(** ** Boards and games used as examples *)

(** 5 columns, 5 rows, 1 mine, candidates taken in the order of the list:
    the mine is at column 0, row 2. *)
Definition demo_board : Board :=
  Eval vm_compute in
    match new_board id 5 5 1 with Ok _ b => b | _ => Board_init 5 5 1 end.

(** 4 columns, 4 rows: every block is in a corner. *)
Definition corners_board : Board :=
  Eval vm_compute in
    match new_board id 4 4 1 with Ok _ b => b | _ => Board_init 4 4 1 end.

(** [demo_board] after a click on its top left block. *)
Definition demo_board_opened : Board :=
  Eval vm_compute in
    match click 0 0 demo_board with Ok _ b => b | _ => demo_board end.

Lemma id_perm : ∀ l : list cell, id l ≡ₚ l.
Proof. done. Qed.

Lemma demo_board_new : new_board id 5 5 1 = Ok tt demo_board.
Proof. by vm_compute. Qed.

Lemma corners_board_new : new_board id 4 4 1 = Ok tt corners_board.
Proof. by vm_compute. Qed.

Lemma demo_board_opened_click : outcome_board (click 0 0 demo_board) = Some demo_board_opened.
Proof. by vm_compute. Qed.

(** ** [click] on a mine, and calls on a lost board *)

Lemma click_bombed x y b : _bombed b = true → click x y b = Ok [] b.
Proof. intros Hb. unfold click. by rewrite click_fuel_S, Hb. Qed.

Lemma flag_bombed x y b : _bombed b = true → flag x y b = Ok tt b.
Proof. intros Hb. by rewrite flag_unfold, Hb. Qed.

Lemma do_calls_bombed cs b :
  _bombed b = true → do_calls cs b = Ok (replicate (length cs) []) b.
Proof.
  intros Hb. induction cs as [|c cs IH]; [done|].
  cbn [do_calls length replicate]. unfold bind at 1.
  assert (do_call c b = Ok [] b) as ->.
  { destruct c as [x y|x y]; simpl; [by apply click_bombed|].
    unfold bind. by rewrite flag_bombed. }
  unfold bind. by rewrite IH.
Qed.

(** C5.  On a board that is not lost, a click on a mined block that is
    neither pressed nor flagged sets [_bombed], changes nothing else and
    returns the single triple [(x, y, -1)]; from then on every call of
    [click] returns the empty list and every call of [flag] returns, and the
    board stays as it is, whatever the calls and their arguments. *)
Theorem click_mine_loses (b : Board) (x y : Z) (cs : list call) :
  _bombed b = false →
  grid_get (pressed b) y x = Some false →
  grid_get (flagged b) y x = Some false →
  grid_get (is_mine b) y x = Some true →
  ∃ b', click x y b = Ok [(x, y, -1)] b' ∧
        b' = with_bombed true b ∧ _bombed b' = true ∧
        do_calls cs b' = Ok (replicate (length cs) []) b'.
Proof.
  intros Hb Hp Hf Hm. exists (with_bombed true b). split_and!; [|done..|].
  - unfold click. by rewrite click_fuel_S, Hb, Hp, Hf, Hm.
  - by apply do_calls_bombed.
Qed.

Lemma click_mine_loses_witness :
  ∃ b', click 0 2 demo_board = Ok [(0, 2, -1)] b' ∧
        b' = with_bombed true demo_board ∧ _bombed b' = true ∧
        do_calls [Click 1 1; Flag 3 3; Click 9 9; Flag (-7) 0] b'
        = Ok (replicate 4 []) b'.
Proof.
  apply (click_mine_loses demo_board 0 2 [Click 1 1; Flag 3 3; Click 9 9; Flag (-7) 0]);
    reflexivity.
Defined.

(** C9, as the code has it.  There is no bounds check in [click] and [flag]:
    they index the lists.  On a board that is not lost, a coordinate beyond
    the list range (column at least the width or below minus the width, row
    at least the height or below minus the height) raises [IndexError] before
    anything is assigned; on a lost board both return without looking at the
    coordinate. *)
Theorem call_out_of_list_range (b : Board) (x y : Z) :
  wf_board b → 0 ≤ windowWidth b → 0 ≤ windowHeight b →
  x < - windowWidth b ∨ windowWidth b ≤ x ∨ y < - windowHeight b ∨ windowHeight b ≤ y →
  click x y b = (if _bombed b then Ok [] b else IndexError b) ∧
  flag x y b = (if _bombed b then Ok tt b else IndexError b).
Proof.
  intros Hwf Hw Hh Hout.
  assert (canon_of b x y = None) as Hc by (apply canon_of_None; lia).
  split.
  - unfold click. rewrite click_fuel_S, get_pressed, Hc by done.
    by destruct (_bombed b).
  - pose proof (flag_spec x y b Hwf) as Hspec. by rewrite Hc in Hspec.
Qed.

Lemma demo_board_wf : wf_board demo_board.
Proof. apply (cr_wf _ _ _ _ _ (new_board_created id id_perm 5 5 1 _ demo_board_new)). Qed.

Lemma call_out_of_list_range_witness :
  click 5 0 demo_board = IndexError demo_board ∧
  flag 5 0 demo_board = IndexError demo_board.
Proof.
  apply (call_out_of_list_range demo_board 5 0);
    [apply demo_board_wf|simpl; lia|simpl; lia|simpl; lia].
Defined.

(** C9 as stated fails: column -1 is outside the board, and [click] presses
    the block of the last column, [flag] flags it, without any error. *)
Lemma call_negative_index_wraps :
  ¬ is_cell demo_board (-1, 0) ∧
  (∃ l b', click (-1) 0 demo_board = Ok l b' ∧
           pressed_at demo_board (4, 0) = false ∧ pressed_at b' (4, 0) = true) ∧
  (∃ b', flag (-1) 0 demo_board = Ok tt b' ∧
         flagged_at demo_board (4, 0) = false ∧ flagged_at b' (4, 0) = true).
Proof.
  split_and!.
  - unfold is_cell. simpl. lia.
  - eexists _, _. split_and!; [by vm_compute|done|done].
  - eexists. split_and!; [by vm_compute|done|done].
Qed.

(** ** Mines, corners and the win test *)

Lemma length_bind_const {A B} (f : A → list B) (k : nat) (l : list A) :
  (∀ x, length (f x) = k) → length (l ≫= f) = (length l * k)%nat.
Proof.
  intros Hf. induction l as [|x l IH]; [done|].
  rewrite bind_cons, length_app, Hf, IH. done.
Qed.

Lemma length_candidates w h :
  length (candidates w h) = (Z.to_nat w * Z.to_nat h)%nat.
Proof.
  unfold candidates.
  rewrite (length_bind_const _ (Z.to_nat h)), length_seqZ; [done|].
  intros x. rewrite (length_bind_const _ 1%nat), length_seqZ; [lia|done].
Qed.

Lemma in_corner_spec w h x y :
  in_corner w h x y = true ↔ (x < 2 ∨ w - 2 ≤ x) ∧ (y < 2 ∨ h - 2 ≤ y).
Proof.
  unfold in_corner. rewrite !orb_true_iff, !andb_true_iff, !bool_decide_eq_true. lia.
Qed.

Lemma safe_unpressed_nil b :
  safe_unpressed b = [] ↔ ∀ c, is_cell b c → mine_at b c = false → pressed_at b c = true.
Proof.
  unfold safe_unpressed. split.
  - intros Hnil c Hc Hm. destruct (pressed_at b c) eqn:Hp; [done|exfalso].
    apply (filter_nil_not_elem_of _ _ c Hnil); [done|by apply elem_of_cells_of].
  - intros Hall. apply elem_of_nil_inv. intros c [[Hm Hp] Hc%elem_of_cells_of]%list_elem_of_filter.
    rewrite (Hall c Hc Hm) in Hp. done.
Qed.

Lemma has_won_iff b :
  remaining b = Z.of_nat (length (safe_unpressed b)) →
  has_won b = true ↔ ∀ c, is_cell b c → mine_at b c = false → pressed_at b c = true.
Proof.
  intros Hr. unfold has_won. rewrite Z.eqb_eq, Hr, <- safe_unpressed_nil.
  destruct (safe_unpressed b); simpl; split; intros; done || lia.
Qed.

Lemma demo_board_opened_reachable : reachable id 5 5 1 demo_board_opened.
Proof.
  eapply reach_click; [apply reach_create, demo_board_new|apply demo_board_opened_click].
Qed.

(** C10.  On every board reached from [create] by calls of [click] and
    [flag] (with any arguments, those that raise included), a pressed block
    is not mined: [click] tests [is_mine] before it assigns [pressed], and
    returns on a mine without pressing it or counting it. *)
Theorem pressed_blocks_are_safe (shuffle : list cell → list cell) (w h m : Z)
    (b : Board) (c : cell) :
  (∀ l, shuffle l ≡ₚ l) →
  reachable shuffle w h m b →
  is_cell b c → pressed_at b c = true → mine_at b c = false.
Proof.
  intros Hperm Hreach. by apply (inv_pressed_safe _ _ _ _ (reachable_inv _ Hperm _ _ _ _ Hreach)).
Qed.

Lemma pressed_blocks_are_safe_witness : mine_at demo_board_opened (1, 1) = false.
Proof.
  apply (pressed_blocks_are_safe id 5 5 1 demo_board_opened (1, 1));
    [apply id_perm|apply demo_board_opened_reachable|by vm_compute|by vm_compute].
Defined.




(** C6, as the code has it.  [create] and [__init__] validate nothing and
    raise nothing: for every width, height and number of mines a board is
    made, with [remaining] set to width x height - mines.  When the number
    of mines exceeds the number of blocks outside the corners, the blocks
    outside the corners are all mined. *)
Theorem create_never_fails (shuffle : list cell → list cell) (w h m : Z) :
  (∀ l, shuffle l ≡ₚ l) →
  ∃ b, new_board shuffle w h m = Ok tt b ∧
       windowWidth b = w ∧ windowHeight b = h ∧ mines b = m ∧
       _bombed b = false ∧ remaining b = w * h - m ∧
       (Z.of_nat (length (eligible w h)) < m →
        ∀ c, is_cell b c → (mine_at b c = true ↔ in_corner w h c.1 c.2 = false)).
Proof.
  intros Hperm. destruct (create_spec shuffle Hperm w h m) as (b & Hnew & Hcr).
  exists b. pose proof Hcr as [Hw Hh Hm Hwf Hcs Hp Hf Hb Hr Hfr Hmine].
  split_and!; try done.
  intros Hmany c Hc. rewrite (Hmine c Hc). unfold placed.
  rewrite decide_True by lia.
  rewrite take_ge.
  - rewrite list_elem_of_filter, Hperm, elem_of_candidates.
    unfold is_cell in Hc. rewrite Hw, Hh in Hc. tauto.
  - assert (length (filter (λ c, in_corner w h c.1 c.2 = false) (shuffle (candidates w h)))
            = length (eligible w h)) as ->; [|lia].
    unfold eligible. by rewrite Hperm.
Qed.

Lemma create_never_fails_witness :
  ∃ b, new_board id 4 4 1 = Ok tt b ∧
       windowWidth b = 4 ∧ windowHeight b = 4 ∧ mines b = 1 ∧
       _bombed b = false ∧ remaining b = 4 * 4 - 1 ∧
       (Z.of_nat (length (eligible 4 4)) < 1 →
        ∀ c, is_cell b c → (mine_at b c = true ↔ in_corner 4 4 c.1 c.2 = false)).
Proof. apply (create_never_fails id 4 4 1), id_perm. Defined.

(** C6 as stated fails: 1 mine on 4 columns by 4 rows is not less than
    4 x 4 - 16, and exceeds the number of blocks outside the corners, which
    is 0; the board is made all the same. *)
Lemma create_accepts_too_many_mines :
  ¬ (1 < 4 * 4 - 16) ∧ (length (eligible 4 4) < 1)%nat ∧
  new_board id 4 4 1 = Ok tt corners_board ∧
  has_won corners_board = false ∧ remaining corners_board = 15.
Proof. split_and!; [lia|by vm_compute..]. Qed.



(** [corners_board] after a click on its top left block. *)
Definition corners_board_opened : Board :=
  Eval vm_compute in
    match click 0 0 corners_board with Ok _ b => b | _ => corners_board end.


(** ** The cascade and the region *)

Lemma zero_region_zero b s c :
  avail b s → count_at b s = 0 → zero_region b s c → avail b c ∧ count_at b c = 0.
Proof. intros Hav Hz Hzr. by destruct Hzr. Qed.

Lemma cascade_region b s c :
  avail b s → count_at b s = 0 →
  cascade b s c ↔ zero_region b s c ∨ border b s c.
Proof.
  intros Hav Hz. split.
  - induction 1 as [|c n _ IH Hzc Hn Havn]; [left; constructor|].
    destruct IH as [Hzr|(_ & Hnz & _)]; [|done].
    destruct (decide (count_at b n = 0)) as [Hzn|Hzn].
    + left. by eapply zr_step.
    + right. split_and!; [done..|]. by exists c.
  - intros [Hzr|(Havc & Hnz & z & Hzr & Hn)].
    + induction Hzr as [|c n Hzr IH Hn Havn Hzn]; [constructor|].
      eapply cascade_next; [done| |done..].
      by apply (zero_region_zero b s c).
    + eapply (cascade_next b s z); [|by apply (zero_region_zero b s z)|done..].
      clear Hn Havc Hnz. induction Hzr as [|c' n Hzr IH Hn Havn Hzn]; [constructor|].
      eapply cascade_next; [done| |done..].
      by apply (zero_region_zero b s c').
Qed.

(** The run of [click] on a block counted 0, on a well-formed board whose
    counts tell the truth about zero. *)
Lemma click_flood_fill b x y :
  wf_board b → counts_sound b → _bombed b = false →
  avail b (x, y) → mine_at b (x, y) = false → count_at b (x, y) = 0 →
  ∃ l b', click x y b = Ok l b' ∧ evolves b b' ∧ _bombed b' = false ∧
    NoDup l.*1 ∧
    (∀ c, c ∈ l.*1 ↔ zero_region b (x, y) c ∨ border b (x, y) c) ∧
    (∀ c, c ∈ l.*1 ↔ is_cell b c ∧ pressed_at b c = false ∧ pressed_at b' c = true) ∧
    (∀ t, t ∈ l → t.2 = count_at b t.1).
Proof.
  intros Hwf Hcs Hb Hav Hm Hz. pose proof Hav as (Hc & Hp & Hf).
  destruct (click_fuel_cascade (S (S (length (candidates (windowWidth b) (windowHeight b)))))
              x y b Hwf Hcs Hb (safe_unpressed_le b) Hc Hm) as (l & b' & Hrun & Hpost).
  destruct Hpost as [Hev Hb' Hnd Hnew Hcnt Hcl Hsound Hdone].
  exists l, b'. split_and!; try done.
  intros c. rewrite <- (cascade_region b (x, y) c) by done. split.
  - intros Hin. by destruct (Hsound c Hin) as (n & ->%list_elem_of_singleton & _ & ?).
  - induction 1 as [|c n _ IH Hzc Hn Havn].
    + apply Hnew. split_and!; [done..|].
      destruct (Hdone (x, y)) as [?|?]; [by apply list_elem_of_singleton|done|done|congruence].
    + destruct Havn as (Hnc & Hnp & Hnf). apply Hnew. split_and!; [done..|].
      destruct (Hcl c n IH Hzc Hn Hnc) as [?|?]; [done|congruence].
Qed.



(** ** The loop of [get_next] *)

(** The flag test of the loop body, when the solve left values. *)
Definition flag_op (val : cell → Q) (flagged_set : gset cell) (c : cell)
    (one_pos : list cell) : list cell :=
  if bool_decide (c ∉ flagged_set) && near (val c) 1 then one_pos ++ [c] else one_pos.

Lemma scan_cons val last ck fl c rest zp op m :
  scan (Some val) last ck fl (c :: rest) zp op m =
  if bool_decide (c ∉ ck) then
    if near (val c) (last c) then Early c
    else if Qlt_bool (val c) m then scan (Some val) last ck fl rest [c] op (val c)
    else if near (val c) m then scan (Some val) last ck fl rest (zp ++ [c]) op m
    else scan (Some val) last ck fl rest zp (flag_op val fl c op) m
  else scan (Some val) last ck fl rest zp (flag_op val fl c op) m.
Proof.
  cbn [scan]. unfold scan_body, flag_check, flag_op.
  cbn [value mbind option_bind].
  destruct (bool_decide (c ∉ ck)), (bool_decide (c ∉ fl)); simpl;
    repeat (destruct (near _ _) || destruct (Qlt_bool _ _)); done.
Qed.

(** With values, the loop never raises. *)
Lemma scan_no_TypeError val last ck fl cells : ∀ zp op m,
  scan (Some val) last ck fl cells zp op m ≠ TypeError.
Proof.
  induction cells as [|c cells IH]; intros zp op m; [done|].
  rewrite scan_cons.
  repeat (case_bool_decide || destruct (near _ _) || destruct (Qlt_bool _ _)); done.
Qed.

(** What the loop returns was in the lists it started from or is a block it
    visited. *)
Lemma scan_subset val last ck fl cells : ∀ zp0 op0 m,
  match scan (Some val) last ck fl cells zp0 op0 m with
  | Early c => c ∈ cells
  | Done zp op => (∀ x, x ∈ zp → x ∈ zp0 ∨ x ∈ cells) ∧ (∀ x, x ∈ op → x ∈ op0 ∨ x ∈ cells)
  | TypeError => True
  end.
Proof.
  induction cells as [|c cells IH]; intros zp0 op0 m; [by split; intros; left|].
  rewrite scan_cons.
  assert (∀ x, x ∈ flag_op val fl c op0 → x ∈ op0 ∨ x = c) as Hflag.
  { intros x. unfold flag_op. destruct (_ && _); [|by left].
    intros [?| ->%list_elem_of_singleton]%elem_of_app; auto. }
  assert (∀ zp1 op1 m1,
            (∀ x, x ∈ zp1 → x ∈ zp0 ∨ x = c) → (∀ x, x ∈ op1 → x ∈ op0 ∨ x = c) →
            match scan (Some val) last ck fl cells zp1 op1 m1 with
            | Early c' => c' ∈ c :: cells
            | Done zp op => (∀ x, x ∈ zp → x ∈ zp0 ∨ x ∈ c :: cells)
                            ∧ (∀ x, x ∈ op → x ∈ op0 ∨ x ∈ c :: cells)
            | TypeError => True
            end) as Hstep.
  { intros zp1 op1 m1 Hzp Hop. specialize (IH zp1 op1 m1).
    destruct (scan (Some val) last ck fl cells zp1 op1 m1) as [c'|zp op|]; [by right| |done].
    destruct IH as [IHz IHo]. split; intros x Hx.
    - destruct (IHz x Hx) as [Hx'|?]; [|right; by right].
      destruct (Hzp x Hx') as [?| ->]; [by left|right; by left].
    - destruct (IHo x Hx) as [Hx'|?]; [|right; by right].
      destruct (Hop x Hx') as [?| ->]; [by left|right; by left]. }
  case_bool_decide.
  - destruct (near (val c) (last c)); [by left|].
    destruct (Qlt_bool (val c) m).
    { apply Hstep; [|by left]. intros x ->%list_elem_of_singleton. by right. }
    destruct (near (val c) m).
    { apply Hstep; [|by left]. intros x [?| ->%list_elem_of_singleton]%elem_of_app; auto. }
    apply Hstep; [by left|done].
  - apply Hstep; [by left|done].
Qed.

(** The minimum [min_prob] holds when the loop has gone through [pre]. *)
Definition running_min (val : cell → Q) (clicked_set : gset cell) (m0 : Q)
    (pre : list cell) : Q :=
  foldl (λ m c, if bool_decide (c ∉ clicked_set) && Qlt_bool (val c) m then val c else m)
        m0 pre.

(** The flag test a block passes to be flagged, given the minimum [m] at
    the time it is visited. *)
Definition flagged_by_scan (val : cell → Q) (ck fl : gset cell) (m : Q) (c : cell) : Prop :=
  (c ∉ fl) ∧ near (val c) 1 = true ∧
  (c ∈ ck ∨ (Qlt_bool (val c) m = false ∧ near (val c) m = false)).

Lemma scan_flags val last ck fl : ∀ pre c post zp0 op0 m0 zp op,
  scan (Some val) last ck fl (pre ++ c :: post) zp0 op0 m0 = Done zp op →
  c ∉ op0 → c ∉ pre → c ∉ post →
  (c ∈ op ↔ flagged_by_scan val ck fl (running_min val ck m0 pre) c).
Proof.
  assert (∀ cells zp0 op0 m0 zp op x,
            scan (Some val) last ck fl cells zp0 op0 m0 = Done zp op →
            x ∉ cells → x ∈ op → x ∈ op0) as Hframe.
  { intros cells zp0 op0 m0 zp op x Hscan Hx Hin.
    pose proof (scan_subset val last ck fl cells zp0 op0 m0) as Hsub.
    rewrite Hscan in Hsub. destruct Hsub as [_ Hsub]. by destruct (Hsub x Hin). }
  assert (∀ cells zp0 op0 m0 zp op x,
            scan (Some val) last ck fl cells zp0 op0 m0 = Done zp op →
            x ∈ op0 → x ∈ op) as Hkeep.
  { induction cells as [|c cells IH]; intros zp0 op0 m0 zp op x Hscan Hin.
    - by simplify_eq/=.
    - rewrite scan_cons in Hscan.
      assert (x ∈ flag_op val fl c op0) as Hin'.
      { unfold flag_op. destruct (_ && _); [|done]. apply elem_of_app. by left. }
      repeat (case_bool_decide || destruct (near _ _) || destruct (Qlt_bool _ _));
        try done; by eapply IH. }
  induction pre as [|p pre IH]; intros c post zp0 op0 m0 zp op Hscan Hop0 Hpre Hpost.
  - rewrite app_nil_l, scan_cons in Hscan. unfold flagged_by_scan, running_min. simpl.
    assert (c ∈ flag_op val fl c op0 ↔ (c ∉ fl) ∧ near (val c) 1 = true) as Hflag.
    { unfold flag_op. destruct (bool_decide (c ∉ fl)) eqn:Hfl; simpl.
      - apply bool_decide_eq_true in Hfl. destruct (near (val c) 1).
        + split; [done|]. intros _. apply elem_of_app. right. by apply list_elem_of_singleton.
        + split; [done|]. by intros [_ ?].
      - apply bool_decide_eq_false in Hfl. split; [done|]. by intros [? _]. }
    case_bool_decide as Hck.
    + destruct (near (val c) (last c)); [done|].
      destruct (Qlt_bool (val c) m0) eqn:Hlt.
      { split; [intros Hin; by apply (Hframe _ _ _ _ _ _ c Hscan) in Hin|].
        intros (_ & _ & [?|[? _]]); done. }
      destruct (near (val c) m0) eqn:Hnear.
      { split; [intros Hin; by apply (Hframe _ _ _ _ _ _ c Hscan) in Hin|].
        intros (_ & _ & [?|[_ ?]]); done. }
      split.
      * intros Hin. apply (Hframe _ _ _ _ _ _ c Hscan Hpost), Hflag in Hin as [? ?].
        split_and!; [done..|]. by right.
      * intros (? & ? & _). apply (Hkeep _ _ _ _ _ _ c Hscan), Hflag. done.
    + split.
      * intros Hin. apply (Hframe _ _ _ _ _ _ c Hscan Hpost), Hflag in Hin as [? ?].
        split_and!; [done..|]. by left.
      * intros (? & ? & _). apply (Hkeep _ _ _ _ _ _ c Hscan), Hflag. done.
  - apply not_elem_of_cons in Hpre as [Hne Hpre].
    rewrite <- app_comm_cons, scan_cons in Hscan.
    assert (c ∉ flag_op val fl p op0) as Hop1.
    { unfold flag_op. destruct (_ && _); [|done].
      intros [?|?%list_elem_of_singleton]%elem_of_app; done. }
    unfold running_min. cbn [foldl]. fold (running_min val ck).
    case_bool_decide as Hck; simpl.
    + destruct (near (val p) (last p)); [done|].
      destruct (Qlt_bool (val p) m0) eqn:Hlt; [by eapply IH|].
      destruct (near (val p) m0); by eapply IH.
    + by eapply IH.
Qed.

(** ** Example solver states *)

(** The solver [on_init] makes for [demo_board]. *)
Definition demo_solver : Solver :=
  match Solver_init demo_board with
  | Some s => s
  | None => mkSolver [] (λ _, 0%Q) ∅ ∅
  end.

Definition demo_game : Game := mkGame demo_board demo_solver true 0.

(** A point of the polytope of [demo_solver]: all the mass on the block at
    column 0, row 0. *)
Definition corner_estimate : cell → Q :=
  λ c, if bool_decide (c = (0, 0)) then 1%Q else 0%Q.

(** Another one: nothing on the mined block, the mass spread over the others. *)
Definition spread_estimate : cell → Q :=
  λ c, if bool_decide (c = (0, 2)) then 0%Q else (1 # 24)%Q.

(** The true one: all the mass on the mined block. *)
Definition mine_estimate : cell → Q :=
  λ c, if bool_decide (c = (0, 2)) then 1%Q else 0%Q.

Lemma demo_game_on_init : on_init id 5 5 1 = Returned demo_game.
Proof. by vm_compute. Qed.

(** [get_next] assigns [clicked] and [flagged], and nothing else. *)
Lemma get_next_keeps solve b s s' r :
  get_next solve b s = Returned (s', r) →
  last_solution s' = last_solution s ∧ constraints s' = constraints s.
Proof.
  unfold get_next. destruct (scan _ _ _ _ _ _ _ _); intros; by simplify_eq/=.
Qed.

(** C4: the code does not do it.  [last_solution] is documented as the
    "solution values from previous iteration", and [get_next] compares the
    new values with it, but nothing assigns it after [__init__]: on the
    5 x 5 board with 1 mine, after a call of [get_next] whose solve returned
    [spread_estimate], [last_solution] is still mines / (height x width)
    = 1/25 everywhere, and not the 1/24 just computed. *)
Theorem get_next_stale_last_solution :
  ∃ s' r, get_next (λ _, Some spread_estimate) demo_board demo_solver = Returned (s', r) ∧
          last_solution s' = last_solution demo_solver ∧
          Qeq (last_solution s' (0, 0)) (1 # 25)%Q ∧
          Qeq (spread_estimate (0, 0)) (1 # 24)%Q ∧
          ¬ Qeq (last_solution s' (0, 0)) (spread_estimate (0, 0)).
Proof.
  destruct (get_next (λ _, Some spread_estimate) demo_board demo_solver)
    as [[s' r]|e] eqn:Hrun; [|by vm_compute in Hrun].
  exists s', r. split; [done|].
  destruct (get_next_keeps _ _ _ _ _ Hrun) as [-> _].
  split_and!; [done|by vm_compute..].
Qed.




(** ** One round of the game *)

Lemma add_constraints_spec b revealed : ∀ s,
  constraints (add_constraints b revealed s)
  = constraints s ++ (revealed ≫= constraints_of (windowWidth b) (windowHeight b) (clicked s))
  ∧ clicked (add_constraints b revealed s) = clicked s
  ∧ solver_flagged (add_constraints b revealed s) = solver_flagged s
  ∧ last_solution (add_constraints b revealed s) = last_solution s.
Proof.
  induction revealed as [|[[i j] mc] revealed IH]; intros s.
  - simpl. by rewrite app_nil_r.
  - change (add_constraints b ((i, j, mc) :: revealed) s)
      with (add_constraints b revealed (add_constraint b i j mc s)).
    destruct (IH (add_constraint b i j mc s)) as (Hc & Hck & Hfl & Hls).
    rewrite Hc, Hck, Hfl, Hls, bind_cons. simpl. by rewrite <- app_assoc.
Qed.

Lemma round_reveals_cons x y cl acc b :
  for_each ((x, y) :: cl) (λ '(x, y) acc, r <- click x y ;; ret (acc ++ r)) acc b =
  match click x y b with
  | Ok r b' => for_each cl (λ '(x, y) acc, r <- click x y ;; ret (acc ++ r)) (acc ++ r) b'
  | IndexError b' => IndexError b'
  | OutOfFuel => OutOfFuel
  end.
Proof.
  cbn [for_each]. unfold bind, ret. by destruct (click x y b).
Qed.

(** The loop over the blocks to click calls [add_constraint] for every
    triple every call of [click] returns. *)
Lemma click_all_spec cl : ∀ b s acc,
  wf_board b → (∀ c, c ∈ cl → is_cell b c) →
  ∃ triples b' s',
    for_each cl (λ '(x, y) acc, r <- click x y ;; ret (acc ++ r)) acc b
    = Ok (acc ++ triples) b' ∧
    click_all cl b s = Returned (b', s') ∧
    evolves b b' ∧
    constraints s' = constraints s
      ++ (triples ≫= constraints_of (windowWidth b) (windowHeight b) (clicked s)) ∧
    clicked s' = clicked s ∧ solver_flagged s' = solver_flagged s ∧
    last_solution s' = last_solution s.
Proof.
  induction cl as [|[x y] cl IH]; intros b s acc Hwf Hcl.
  - exists [], b, s. rewrite !app_nil_r. split_and!; try done. by apply evolves_refl.
  - rewrite round_reveals_cons. cbn [click_all].
    pose proof (click_ends_wf x y b Hwf) as Hends.
    assert (∀ b', outcome_board (click x y b) = Some b' → evolves b b') as Hev.
    { intros b'. by apply click_fuel_evolves. }
    destruct (click x y b) as [r b1|b1|]; simpl in Hends; [| |done].
    2: { destruct Hends as (_ & _ & Hnone).
         assert (is_cell b (x, y)) as Hxy by (apply Hcl; by left).
         apply canon_of_cell in Hxy. simpl in Hxy. congruence. }
    specialize (Hev b1 eq_refl).
    destruct (add_constraints_spec b1 r s) as (Hc1 & Hck1 & Hfl1 & Hls1).
    destruct (IH b1 (add_constraints b1 r s) (acc ++ r)) as
      (triples & b' & s' & Hrun & Hall & Hev' & Hc & Hck & Hfl & Hls).
    { apply Hev. }
    { intros c Hc. apply (evolves_is_cell b b1); [done|]. apply Hcl. by right. }
    exists (r ++ triples), b', s'. split_and!.
    + by rewrite Hrun, app_assoc.
    + done.
    + by eapply evolves_trans.
    + rewrite Hc, Hc1, Hck1, bind_app, (ev_width _ _ Hev), (ev_height _ _ Hev).
      by rewrite app_assoc.
    + congruence.
    + congruence.
    + congruence.
Qed.

Lemma flag_all_cons x y fl b :
  flag_all ((x, y) :: fl) b =
  match flag x y b with
  | Ok _ b' => flag_all fl b'
  | IndexError b' => IndexError b'
  | OutOfFuel => OutOfFuel
  end.
Proof.
  unfold flag_all. cbn [for_each]. unfold bind. by destruct (flag x y b) as [[] ?|?|].
Qed.

(** The loop over the blocks to flag returns. *)
Lemma flag_all_spec fl : ∀ b,
  wf_board b → (∀ c, c ∈ fl → is_cell b c) →
  ∃ b', flag_all fl b = Ok tt b'.
Proof.
  induction fl as [|[x y] fl IH]; intros b Hwf Hfl; [by exists b|].
  rewrite flag_all_cons.
  pose proof (flag_spec x y b Hwf) as Hspec.
  assert (is_cell b (x, y)) as Hxy by (apply Hfl; by left).
  apply canon_of_cell in Hxy. simpl in Hxy. rewrite Hxy in Hspec.
  destruct (_bombed b || pressed_at b (x, y)).
  - rewrite Hspec. apply IH; [done|]. intros c Hc. apply Hfl. by right.
  - destruct Hspec as (g & -> & Hwf' & _). apply IH; [done|].
    intros c Hc. apply (Hfl c). by right.
Qed.

(** C1, as the code has it.  In a round on a board that is not lost,
    [add_constraint] is called for every triple every call of [click]
    returns, the triple [(x, y, -1)] of a clicked mine included: the list of
    constraints grows by the two constraints of each triple, in order.
    Nothing ends the round early: the remaining blocks are clicked and the
    flag list is gone through (on the lost board these calls do nothing),
    the round is counted and [_running] is not changed.  It is the next
    round that finds [_bombed] set, and stops the game. *)
Theorem round_adds_every_triple (solve : list constraint → option (cell → Q))
    (g : Game) (val : cell → Q) :
  wf_board (board g) →
  solve (constraints (solver g)) = Some val →
  if _bombed (board g) then
    on_loop solve g = Returned (mkGame (board g) (solver g) false (loop_count g))
  else
    ∃ s cl fl triples b g',
      get_next solve (board g) (solver g) = Returned (s, (cl, fl)) ∧
      round_reveals cl (board g) = Ok triples b ∧
      on_loop solve g = Returned g' ∧
      constraints (solver g')
      = constraints (solver g)
        ++ (triples ≫= constraints_of (windowWidth (board g)) (windowHeight (board g))
                                      (clicked s)) ∧
      flag_all fl b = Ok tt (board g') ∧
      _running g' = _running g ∧
      loop_count g' = loop_count g + 1.
Proof.
  intros Hwf Hsolve. unfold on_loop. destruct (_bombed (board g)); [done|].
  pose proof (scan_subset val (last_solution (solver g)) (clicked (solver g))
                (solver_flagged (solver g))
                (candidates (windowWidth (board g)) (windowHeight (board g))) [] [] 1%Q)
    as Hsub.
  pose proof (scan_no_TypeError val (last_solution (solver g)) (clicked (solver g))
                (solver_flagged (solver g))
                (candidates (windowWidth (board g)) (windowHeight (board g))) [] [] 1%Q)
    as Hno.
  assert (∃ s cl fl, get_next solve (board g) (solver g) = Returned (s, (cl, fl)) ∧
                     constraints s = constraints (solver g) ∧
                     (∀ c, c ∈ cl → is_cell (board g) c) ∧
                     (∀ c, c ∈ fl → is_cell (board g) c)) as (s & cl & fl & Hnext & Hcs & Hcl & Hfl).
  { unfold get_next. rewrite Hsolve.
    destruct (scan _ _ _ _ _ _ _ _) as [c|zp op|]; [| |done].
    - eexists _, _, _. split_and!; [done..| |by intros ? ?%elem_of_nil].
      intros c' ->%list_elem_of_singleton. by apply elem_of_cells_of.
    - destruct Hsub as [Hzp Hop]. eexists _, _, _. split_and!; [done..| |].
      + intros c Hin. destruct (Hzp c Hin) as [?%elem_of_nil|?]; [done|].
        by apply elem_of_cells_of.
      + intros c Hin. destruct (Hop c Hin) as [?%elem_of_nil|?]; [done|].
        by apply elem_of_cells_of. }
  rewrite Hnext.
  destruct (click_all_spec cl (board g) s [] Hwf Hcl)
    as (triples & b & s' & Hrun & Hall & Hev & Hc & _).
  rewrite Hall.
  destruct (flag_all_spec fl b) as (b' & Hflags); [apply Hev| |].
  { intros c Hin. apply (evolves_is_cell (board g) b); [done|]. by apply Hfl. }
  rewrite Hflags.
  eexists s, cl, fl, triples, b, _. split_and!; try done.
  simpl. by rewrite Hc, Hcs.
Qed.

Lemma round_adds_every_triple_witness :
  ∃ s cl fl triples b g',
    get_next (λ _, Some spread_estimate) demo_board demo_solver = Returned (s, (cl, fl)) ∧
    round_reveals cl demo_board = Ok triples b ∧
    on_loop (λ _, Some spread_estimate) demo_game = Returned g' ∧
    constraints (solver g')
    = constraints demo_solver ++ (triples ≫= constraints_of 5 5 (clicked s)) ∧
    flag_all fl b = Ok tt (board g') ∧
    _running g' = true ∧
    loop_count g' = 0 + 1.
Proof.
  apply (round_adds_every_triple (λ _, Some spread_estimate) demo_game spread_estimate);
    [apply demo_board_wf|reflexivity].
Defined.

(** C1 as stated fails: in the round where the solver has the mined block at
    column 0, row 2 clicked, [click] returns the triple [(0, 2, -1)] and
    [add_constraint] is called with it: the constraints "sum of the
    neighbours = -1" and "x[0, 2] = 0" are appended; the round ends as any
    other, counted, with [_running] still set. *)
Lemma round_adds_loss_sentinel :
  ∃ s g',
    get_next (λ _, Some spread_estimate) demo_board demo_solver
    = Returned (s, ([(0, 2)], [])) ∧
    click 0 2 demo_board = Ok [(0, 2, -1)] (board g') ∧
    on_loop (λ _, Some spread_estimate) demo_game = Returned g' ∧
    constraints (solver g')
    = [CTotal 1; CLower; CUpper;
       CSum [(0, 1); (0, 3); (1, 1); (1, 2); (1, 3)] (-1); CZero (0, 2)] ∧
    _bombed (board g') = true ∧ _running g' = true ∧ loop_count g' = 1.
Proof.
  destruct (on_loop (λ _, Some spread_estimate) demo_game) as [g'|e] eqn:Hloop;
    [|by vm_compute in Hloop].
  destruct (get_next (λ _, Some spread_estimate) demo_board demo_solver)
    as [[s r]|e] eqn:Hnext; [|by vm_compute in Hnext].
  exists s, g'. split_and!.
  - f_equal. f_equal.
    assert (match get_next (λ _, Some spread_estimate) demo_board demo_solver with
            | Returned (_, r) => r | Raised _ => ([], []) end = ([(0, 2)], [])) as Hr
      by by vm_compute.
    by rewrite Hnext in Hr.
  - assert (match on_loop (λ _, Some spread_estimate) demo_game with
            | Returned g' => click 0 2 demo_board = Ok [(0, 2, -1)] (board g')
            | Raised _ => False end) as Hr by by vm_compute.
    by rewrite Hloop in Hr.
  - done.
  - assert (match on_loop (λ _, Some spread_estimate) demo_game with
            | Returned g' => constraints (solver g') | Raised _ => [] end
            = [CTotal 1; CLower; CUpper;
               CSum [(0, 1); (0, 3); (1, 1); (1, 2); (1, 3)] (-1); CZero (0, 2)]) as Hr
      by by vm_compute.
    by rewrite Hloop in Hr.
  - assert (match on_loop (λ _, Some spread_estimate) demo_game with
            | Returned g' => _bombed (board g') | Raised _ => false end = true) as Hr
      by by vm_compute.
    by rewrite Hloop in Hr.
  - assert (match on_loop (λ _, Some spread_estimate) demo_game with
            | Returned g' => _running g' | Raised _ => false end = true) as Hr
      by by vm_compute.
    by rewrite Hloop in Hr.
  - assert (match on_loop (λ _, Some spread_estimate) demo_game with
            | Returned g' => loop_count g' | Raised _ => 0 end = 1) as Hr
      by by vm_compute.
    by rewrite Hloop in Hr.
Qed.


(** * Further properties of the board *)

(** ** [flag] *)

Lemma py_set_back {A} (l l1 : list A) (i : Z) (v v' : A) :
  py_get l i = Some v → py_set l i v' = Some l1 → py_set l1 i v = Some l.
Proof.
  unfold py_get, py_set. intros Hget Hset.
  destruct (py_index (length l) i) as [k|] eqn:Hk; [|done]. simpl in *.
  injection Hset as <-. rewrite length_insert, Hk. simpl.
  by rewrite list_insert_insert_eq, list_insert_id.
Qed.

Lemma py_get_set {A} (l l1 : list A) (i : Z) (v : A) :
  py_set l i v = Some l1 → py_get l1 i = Some v.
Proof.
  unfold py_get, py_set. intros Hset.
  destruct (py_index (length l) i) as [k|] eqn:Hk; [|done]. simpl in *.
  injection Hset as <-. rewrite length_insert, Hk. simpl.
  apply list_lookup_insert_eq. by eapply py_index_lt.
Qed.

(** Storing back the value a grid held undoes a store at the same indices. *)
Lemma grid_set_back {A} (g g1 : list (list A)) (y x : Z) (v v' : A) :
  grid_get g y x = Some v → grid_set g y x v' = Some g1 → grid_set g1 y x v = Some g.
Proof.
  unfold grid_get, grid_set. intros Hget Hset.
  destruct (py_get g y) as [row|] eqn:Hrow; [|done]. simpl in *.
  destruct (py_set row x v') as [row1|] eqn:Hrow1; [|done]. simpl in *.
  rewrite (py_get_set _ _ _ _ Hset). simpl.
  rewrite (py_set_back _ _ _ _ _ Hget Hrow1). simpl.
  by apply (py_set_back g g1 y row row1).
Qed.

(** X1.  [flag] on a block of a well-formed board: nothing happens when the
    board is lost or the block is pressed; otherwise the flag of that block
    is inverted, [flags_remaining] loses 1 when the block becomes flagged and
    gains 1 when it stops being flagged, and nothing else changes. *)
Theorem flag_toggles (b : Board) (x y : Z) :
  wf_board b → is_cell b (x, y) →
  if _bombed b || pressed_at b (x, y) then flag x y b = Ok tt b
  else
    ∃ b', flag x y b = Ok tt b' ∧
      flagged_at b' (x, y) = negb (flagged_at b (x, y)) ∧
      (∀ c, is_cell b c → c ≠ (x, y) → flagged_at b' c = flagged_at b c) ∧
      flags_remaining b' = flags_remaining b + (if flagged_at b (x, y) then 1 else -1) ∧
      pressed b' = pressed b ∧ is_mine b' = is_mine b ∧
      neighboring_mine_count b' = neighboring_mine_count b ∧
      remaining b' = remaining b ∧ _bombed b' = false ∧ wf_board b'.
Proof.
  intros Hwf Hc. pose proof (flag_spec x y b Hwf) as Hspec.
  pose proof (canon_of_cell b (x, y) Hc) as Hcan. simpl in Hcan. rewrite Hcan in Hspec.
  destruct (_bombed b) eqn:Hb; [done|]. simpl in *.
  destruct (pressed_at b (x, y)); [done|].
  destruct Hspec as (g & Hflag & Hwf' & Hfl).
  eexists. split; [done|]. split_and!; try done.
  - by rewrite Hfl, decide_True.
  - intros c Hcc Hne. by rewrite Hfl, decide_False.
Qed.

Lemma flag_toggles_witness :
  ∃ b', flag 3 3 demo_board = Ok tt b' ∧
    flagged_at b' (3, 3) = negb (flagged_at demo_board (3, 3)) ∧
    (∀ c, is_cell demo_board c → c ≠ (3, 3) → flagged_at b' c = flagged_at demo_board c) ∧
    flags_remaining b' = flags_remaining demo_board
                         + (if flagged_at demo_board (3, 3) then 1 else -1) ∧
    pressed b' = pressed demo_board ∧ is_mine b' = is_mine demo_board ∧
    neighboring_mine_count b' = neighboring_mine_count demo_board ∧
    remaining b' = remaining demo_board ∧ _bombed b' = false ∧ wf_board b'.
Proof.
  apply (flag_toggles demo_board 3 3); [apply demo_board_wf|unfold is_cell; simpl; lia].
Defined.

(** X2.  Two calls of [flag] with the same arguments give back the board as
    it was, field for field (for negative indices too), whenever the first
    call returns. *)
Theorem flag_twice (b b1 : Board) (x y : Z) :
  wf_board b → flag x y b = Ok tt b1 → flag x y b1 = Ok tt b.
Proof.
  intros Hwf Hflag. pose proof (flag_spec x y b Hwf) as Hspec.
  destruct (canon_of b x y) as [c|] eqn:Hcan.
  - destruct (_bombed b) eqn:Hb; simpl in Hspec.
    { rewrite Hspec in Hflag. by simplify_eq. }
    destruct (pressed_at b c) eqn:Hp.
    { rewrite Hspec in Hflag. by simplify_eq. }
    clear Hspec. rewrite flag_unfold, Hb in Hflag.
    rewrite get_pressed, Hcan in Hflag by done. simpl in Hflag. rewrite Hp in Hflag.
    destruct (grid_get (flagged b) y x) as [f|] eqn:Hf; [|done].
    destruct (grid_set (flagged b) y x (negb f)) as [g|] eqn:Hg; [|done].
    destruct (grid_get g y x) as [f'|] eqn:Hf'; [|done].
    injection Hflag as <-.
    assert (grid_get g y x = Some (negb f)) as Hgn.
    { unfold grid_get, grid_set in *.
      destruct (py_get (flagged b) y) as [row|] eqn:Hrow; [|done]. simpl in *.
      destruct (py_set row x (negb f)) as [row1|] eqn:Hrow1; [|done]. simpl in *.
      rewrite (py_get_set _ _ _ _ Hg). simpl. by eapply py_get_set. }
    rewrite Hgn in Hf'. injection Hf' as <-.
    rewrite flag_unfold. simpl. rewrite Hb.
    change (grid_get (pressed b) y x) with (grid_get (pressed b) y x).
    rewrite get_pressed, Hcan by done. simpl. rewrite Hp, Hgn.
    rewrite negb_involutive, (grid_set_back _ _ _ _ _ _ Hf Hg), Hf. f_equal.
    destruct b. simpl in *. unfold with_flags_remaining, with_flagged. simpl.
    f_equal. destruct f; simpl; lia.
  - rewrite Hspec in Hflag. destruct (_bombed b); by simplify_eq.
Qed.

Lemma flag_twice_witness :
  flag 3 3 (with_flags_remaining 0 (with_flagged
              [[false; false; false; false; false]; [false; false; false; false; false];
               [false; false; false; false; false]; [false; false; false; true; false];
               [false; false; false; false; false]] demo_board)) = Ok tt demo_board.
Proof.
  apply (flag_twice demo_board _ 3 3); [apply demo_board_wf|reflexivity].
Defined.

(** ** [click] *)

(** X3.  A second call of [click] with the same arguments returns the empty
    list and leaves the board as the first call left it: the block is then
    pressed or flagged, or the board is lost. *)
Theorem click_again (b b' : Board) (x y : Z) (l : list triple) :
  wf_board b → click x y b = Ok l b' → click x y b' = Ok [] b'.
Proof.
  intros Hwf Hclick.
  assert (evolves b b') as Hev.
  { apply (click_fuel_evolves (S (S (length (candidates (windowWidth b) (windowHeight b)))))
             x y b b' Hwf).
    change (outcome_board (click x y b) = Some b'). by rewrite Hclick. }
  unfold click in *. rewrite click_fuel_S in Hclick |- *.
  destruct (_bombed b') eqn:Hb'; [done|].
  pose proof (ev_bombed_mono _ _ Hev Hb') as Hb. rewrite Hb in Hclick.
  assert (∀ c, canon_of b x y = Some c → pressed_at b' c = true ∨ flagged_at b c = true →
               match grid_get (pressed b') y x with
               | Some true => Ok [] b'
               | Some false =>
                 match grid_get (flagged b') y x with
                 | Some true => Ok [] b'
                 | Some false => IndexError b'
                 | None => IndexError b'
                 end
               | None => IndexError b'
               end = Ok ([] : list triple) b') as Hdone.
  { intros c Hcan Hor.
    rewrite (get_pressed b' (ev_wf _ _ Hev)), (get_flagged b' (ev_wf _ _ Hev)).
    unfold canon_of in *. rewrite (ev_width _ _ Hev), (ev_height _ _ Hev), Hcan. simpl.
    destruct (pressed_at b' c); [done|].
    rewrite (evolves_flagged_at b b') by done. by destruct Hor as [?| ->]. }
  rewrite get_pressed, get_flagged, get_is_mine in Hclick by done.
  destruct (canon_of b x y) as [c|] eqn:Hcan; [|done]. simpl in Hclick.
  pose proof (canon_of_is_cell _ _ _ _ Hcan) as Hc.
  destruct (pressed_at b c) eqn:Hp.
  { assert (pressed_at b' c = true) as Hp' by by apply (ev_pressed_mono _ _ Hev).
    specialize (Hdone c eq_refl (or_introl Hp')).
    destruct (grid_get (pressed b') y x) as [[]|]; [done| |done].
    destruct (grid_get (flagged b') y x) as [[]|]; done. }
  destruct (flagged_at b c) eqn:Hf.
  { specialize (Hdone c eq_refl (or_intror Hf)).
    destruct (grid_get (pressed b') y x) as [[]|]; [done| |done].
    destruct (grid_get (flagged b') y x) as [[]|]; done. }
  destruct (mine_at b c) eqn:Hm.
  { injection Hclick as <- <-. done. }
  destruct (grid_set (pressed b) y x true) as [g|] eqn:Hg; [|done].
  destruct (press_spec b Hwf x y g c Hcan Hg) as [Hwf1 Hpr].
  assert (pressed_at (press g b) c = true) as Hp1 by by rewrite Hpr, decide_True.
  assert (evolves (press g b) b') as Hev1.
  { rewrite get_count, Hcan in Hclick by done. simpl in Hclick.
    destruct (count_at b c =? 0).
    - eapply click_neighbors_evolves; [done|]. by rewrite Hclick.
    - injection Hclick as <- <-. by apply evolves_refl. }
  assert (pressed_at b' c = true) as Hp' by by apply (ev_pressed_mono _ _ Hev1).
  specialize (Hdone c eq_refl (or_introl Hp')).
  destruct (grid_get (pressed b') y x) as [[]|]; [done| |done].
  destruct (grid_get (flagged b') y x) as [[]|]; done.
Qed.

Lemma click_again_witness : click 0 0 demo_board_opened = Ok [] demo_board_opened.
Proof.
  apply (click_again demo_board demo_board_opened 0 0
           [(0, 0, 0); (1, 0, 0); (2, 0, 0); (3, 0, 0); (4, 0, 0); (4, 1, 0); (4, 2, 0);
            (4, 3, 0); (4, 4, 0); (3, 4, 0); (2, 4, 0); (1, 4, 0); (0, 4, 0); (0, 3, 1);
            (1, 3, 1); (2, 3, 0); (3, 3, 0); (2, 2, 0); (3, 2, 0); (2, 1, 0); (3, 1, 0);
            (1, 2, 1); (1, 1, 1); (0, 1, 1)]);
    [apply demo_board_wf|by vm_compute].
Defined.

(** X4.  Whatever its arguments and however it ends, [click] leaves the
    flags, the mines, the counts and the dimensions of a well-formed board
    alone, presses no flagged block and no mined one, and un-presses nothing. *)
Theorem click_frame (b b' : Board) (x y : Z) :
  wf_board b → outcome_board (click x y b) = Some b' →
  flagged b' = flagged b ∧ flags_remaining b' = flags_remaining b ∧
  is_mine b' = is_mine b ∧ neighboring_mine_count b' = neighboring_mine_count b ∧
  mines b' = mines b ∧ windowWidth b' = windowWidth b ∧ windowHeight b' = windowHeight b ∧
  wf_board b' ∧
  ∀ c, is_cell b c →
    (pressed_at b c = true → pressed_at b' c = true) ∧
    (flagged_at b c = true → pressed_at b' c = pressed_at b c) ∧
    (mine_at b c = true → pressed_at b' c = pressed_at b c).
Proof.
  intros Hwf Hrun. pose proof (click_fuel_evolves _ x y b b' Hwf Hrun) as Hev.
  destruct Hev as [Hw Hh Hm Hf Hmi Hcnt Hfr Hwf' Hmono Hnew Hr Hme Hbo Hbm].
  split_and!; try done. intros c Hc. split_and!.
  - by apply Hmono.
  - intros Hfl. destruct (pressed_at b c) eqn:Hp; [by apply Hmono|].
    destruct (pressed_at b' c) eqn:Hp'; [|done].
    destruct (Hnew c Hc Hp Hp'). congruence.
  - intros Hmc. destruct (pressed_at b c) eqn:Hp; [by apply Hmono|].
    destruct (pressed_at b' c) eqn:Hp'; [|done].
    destruct (Hnew c Hc Hp Hp'). congruence.
Qed.

Lemma click_frame_witness :
  flagged demo_board_opened = flagged demo_board ∧
  flags_remaining demo_board_opened = flags_remaining demo_board ∧
  is_mine demo_board_opened = is_mine demo_board ∧
  neighboring_mine_count demo_board_opened = neighboring_mine_count demo_board ∧
  mines demo_board_opened = mines demo_board ∧
  windowWidth demo_board_opened = windowWidth demo_board ∧
  windowHeight demo_board_opened = windowHeight demo_board ∧
  wf_board demo_board_opened ∧
  ∀ c, is_cell demo_board c →
    (pressed_at demo_board c = true → pressed_at demo_board_opened c = true) ∧
    (flagged_at demo_board c = true →
     pressed_at demo_board_opened c = pressed_at demo_board c) ∧
    (mine_at demo_board c = true →
     pressed_at demo_board_opened c = pressed_at demo_board c).
Proof.
  apply (click_frame demo_board demo_board_opened 0 0);
    [apply demo_board_wf|apply demo_board_opened_click].
Defined.

(** ** Flags through a game *)

Definition flagged_cells (b : Board) : list cell :=
  filter (λ c, flagged_at b c = true) (cells_of b).

(** What [click] and [flag] keep true of the flags. *)
Record flags_inv (b : Board) : Prop := {
  fi_exclusive : ∀ c, is_cell b c → pressed_at b c = true → flagged_at b c = false;
  fi_count : flags_remaining b = mines b - Z.of_nat (length (flagged_cells b))
}.

Lemma created_flags_inv w h m cands b : created w h m cands b → flags_inv b.
Proof.
  intros [Hw Hh Hm Hwf Hcs Hp Hf Hb Hr Hfr Hmine]. split.
  - intros c Hc Hpc. by rewrite Hp in Hpc.
  - assert (flagged_cells b = []) as ->; [|simpl; lia].
    apply elem_of_nil_inv. intros c [Hfc Hc%elem_of_cells_of]%list_elem_of_filter.
    rewrite Hf in Hfc; done.
Qed.

Lemma evolves_flags_inv b b' : evolves b b' → flags_inv b → flags_inv b'.
Proof.
  intros Hev [Hex Hcnt]. split.
  - intros c Hc Hp. apply (evolves_is_cell b b') in Hc; [|done].
    rewrite (evolves_flagged_at b b') by done.
    destruct (pressed_at b c) eqn:Hpb; [by apply Hex|].
    by apply (ev_pressed_new _ _ Hev).
  - rewrite (ev_flags_remaining _ _ Hev), (ev_mines _ _ Hev), Hcnt.
    unfold flagged_cells. rewrite (evolves_cells b b') by done.
    do 2 f_equal. apply filter_length_ext. intros c _.
    by rewrite (evolves_flagged_at b b').
Qed.

Lemma flag_flags_inv b x y b' :
  wf_board b → flags_inv b → outcome_board (flag x y b) = Some b' → flags_inv b'.
Proof.
  intros Hwf [Hex Hcnt] Hrun. pose proof (flag_spec x y b Hwf) as Hspec.
  destruct (canon_of b x y) as [c0|] eqn:Hcan.
  - pose proof (canon_of_is_cell _ _ _ _ Hcan) as Hc0.
    destruct (_bombed b) eqn:Hb; simpl in Hspec.
    { rewrite Hspec in Hrun. by simplify_eq/=. }
    destruct (pressed_at b c0) eqn:Hp0.
    { rewrite Hspec in Hrun. by simplify_eq/=. }
    destruct Hspec as (g & Hflag & Hwf' & Hfl). rewrite Hflag in Hrun.
    simpl in Hrun. injection Hrun as <-. split.
    + intros c Hc Hp. change (pressed_at b c = true) in Hp.
      rewrite Hfl by done. case_decide; [congruence|by apply Hex].
    + cbn [flags_remaining toggled with_flags_remaining mines with_flagged].
      rewrite Hcnt. unfold flagged_cells.
      change (cells_of (toggled g (flagged_at b c0) b)) with (cells_of b).
      destruct (flagged_at b c0) eqn:Hf0.
      * assert (length (filter (λ c, flagged_at b c = true) (cells_of b))
                = S (length (filter (λ c, flagged_at (toggled g true b) c = true)
                               (cells_of b)))) as Hlen; [|lia].
        apply (filter_remove_one _ _ _ c0); [apply NoDup_candidates| |done| |].
        -- by apply elem_of_cells_of.
        -- by rewrite Hfl, decide_True.
        -- intros c Hc%elem_of_cells_of Hne. by rewrite Hfl, decide_False.
      * assert (length (filter (λ c, flagged_at (toggled g false b) c = true) (cells_of b))
                = S (length (filter (λ c, flagged_at b c = true) (cells_of b)))) as Hlen;
          [|lia].
        apply (filter_remove_one _ _ _ c0); [apply NoDup_candidates| | | |].
        -- by apply elem_of_cells_of.
        -- by rewrite Hfl, decide_True.
        -- by rewrite Hf0.
        -- intros c Hc%elem_of_cells_of Hne. by rewrite Hfl, decide_False.
  - rewrite Hspec in Hrun. destruct (_bombed b); by simplify_eq/=.
Qed.

Lemma reachable_flags_inv shuffle w h m b :
  (∀ l, shuffle l ≡ₚ l) → reachable shuffle w h m b → flags_inv b.
Proof.
  intros Hperm. induction 1 as [b Hnew|b x y b' Hreach IH Hrun|b x y b' Hreach IH Hrun].
  - eapply created_flags_inv. by apply (new_board_created shuffle Hperm).
  - eapply evolves_flags_inv; [|done]. eapply click_fuel_evolves; [|done].
    apply (inv_wf _ _ _ _ (reachable_inv _ Hperm _ _ _ _ Hreach)).
  - eapply flag_flags_inv; [|done..].
    apply (inv_wf _ _ _ _ (reachable_inv _ Hperm _ _ _ _ Hreach)).
Qed.

(** X5.  On every board reached from [create] by calls of [click] and
    [flag], no block is both pressed and flagged: [flag] refuses a pressed
    block and [click] a flagged one. *)
Theorem pressed_and_flagged_exclusive (shuffle : list cell → list cell) (w h m : Z)
    (b : Board) (c : cell) :
  (∀ l, shuffle l ≡ₚ l) → reachable shuffle w h m b → is_cell b c →
  ¬ (pressed_at b c = true ∧ flagged_at b c = true).
Proof.
  intros Hperm Hreach Hc [Hp Hf].
  rewrite (fi_exclusive _ (reachable_flags_inv _ _ _ _ _ Hperm Hreach) c Hc Hp) in Hf. done.
Qed.

Lemma pressed_and_flagged_exclusive_witness :
  ¬ (pressed_at demo_board_opened (1, 1) = true ∧ flagged_at demo_board_opened (1, 1) = true).
Proof.
  apply (pressed_and_flagged_exclusive id 5 5 1 demo_board_opened (1, 1));
    [apply id_perm|apply demo_board_opened_reachable|unfold is_cell; simpl; lia].
Defined.

(** X6.  On every board reached from [create] by calls of [click] and
    [flag], [flags_remaining] is the number of mines asked for minus the
    number of flagged blocks; nothing keeps it from going below zero. *)
Theorem flags_remaining_counts (shuffle : list cell → list cell) (w h m : Z) (b : Board) :
  (∀ l, shuffle l ≡ₚ l) → reachable shuffle w h m b →
  flags_remaining b = m - Z.of_nat (length (flagged_cells b)).
Proof.
  intros Hperm Hreach.
  rewrite (fi_count _ (reachable_flags_inv _ _ _ _ _ Hperm Hreach)).
  by rewrite (inv_mines _ _ _ _ (reachable_inv _ Hperm _ _ _ _ Hreach)).
Qed.

(** [demo_board] with the blocks at (3, 3) and (4, 4) flagged: one flag more
    than there are mines. *)
Definition demo_board_flagged : Board :=
  Eval vm_compute in
    match (flag 3 3 ;;; flag 4 4)%board demo_board with Ok _ b => b | _ => demo_board end.

Lemma demo_board_flagged_reachable : reachable id 5 5 1 demo_board_flagged.
Proof.
  apply (reach_flag id 5 5 1 (toggled
           [[false; false; false; false; false]; [false; false; false; false; false];
            [false; false; false; false; false]; [false; false; false; true; false];
            [false; false; false; false; false]] false demo_board) 4 4);
    [|by vm_compute].
  apply (reach_flag id 5 5 1 demo_board 3 3); [|by vm_compute].
  apply reach_create, demo_board_new.
Qed.

Lemma flags_remaining_counts_witness :
  flags_remaining demo_board_flagged = 1 - Z.of_nat (length (flagged_cells demo_board_flagged)).
Proof.
  apply (flags_remaining_counts id 5 5 1 demo_board_flagged);
    [apply id_perm|apply demo_board_flagged_reachable].
Defined.

(** ** [remaining] and the list [click] returns *)



(** ** The counts [create] computes *)

#[global] Instance is_cell_dec (b : Board) (c : cell) : Decision (is_cell b c).
Proof. unfold is_cell. apply _. Defined.

(** The mined blocks of the board among the 8 neighbours of [n]. *)
Definition mined_neighbors (b : Board) (n : cell) : list cell :=
  filter (λ c, is_cell b c ∧ mine_at b c = true) (neighbors8 n.1 n.2).

Lemma NoDup_neighbors8 x y : NoDup (neighbors8 x y).
Proof.
  unfold neighbors8.
  repeat (apply NoDup_cons; split;
          [rewrite ?elem_of_cons, elem_of_nil; intros H;
           repeat destruct H as [H|H]; try done; injection H; lia|]).
  apply NoDup_nil_2.
Qed.

Lemma length_filter_eq_NoDup {A} `{!EqDecision A} (l : list A) (a : A) :
  NoDup l → length (filter (λ x, x = a) l) = if decide (a ∈ l) then 1%nat else 0%nat.
Proof.
  induction 1 as [|x l Hx Hnd IH]; [done|].
  rewrite filter_cons. destruct (decide (x = a)) as [->|Hne].
  - rewrite decide_True by by left. simpl. rewrite IH, decide_False; done.
  - rewrite IH. destruct (decide (a ∈ l)).
    + rewrite decide_True; [done|by right].
    + rewrite decide_False; [done|]. by intros [?|?]%elem_of_cons.
Qed.

Lemma bump_list_exact ns : ∀ b,
  wf_board b →
  ∃ b', bump_list ns b = Ok tt b' ∧ bumped b b' ∧
        ∀ c, is_cell b c →
          count_at b' c = count_at b c + Z.of_nat (length (filter (λ n, n = c) ns)).
Proof.
  induction ns as [|[nx ny] ns IH]; intros b Hwf.
  - exists b. split_and!; [done|by apply bumped_refl|]. intros c _. simpl. lia.
  - rewrite bump_list_cons.
    destruct (in_bounds b nx ny) eqn:Hin.
    + apply in_bounds_is_cell in Hin.
      rewrite (get_count_cell b Hwf nx ny) by done.
      destruct (grid_set_is_Some (neighboring_mine_count b) ny nx (count_at b (nx, ny) + 1))
        as [_ [g Hg]].
      { rewrite (get_count_cell b Hwf nx ny) by done. eauto. }
      rewrite Hg. destruct (bump_one b nx ny g Hwf Hin Hg) as [Hbu Hone].
      assert (∀ c, is_cell b c → c ≠ (nx, ny) → count_at (with_count g b) c = count_at b c)
        as Hother.
      { destruct (grid_set_spec _ _ _ _ _ _ _ (wf_count _ Hwf) Hg) as (Hs & c0 & Hc0 & Hget).
        change (canon _ _ nx ny) with (canon_of b nx ny) in Hc0.
        pose proof (canon_of_cell b (nx, ny) Hin) as Hcxy. simpl in Hcxy.
        rewrite Hcxy in Hc0. injection Hc0 as <-.
        intros [cx cy] [Hcx Hcy] Hne. unfold count_at. simpl in *.
        rewrite Hget by lia. by repeat case_decide. }
      destruct (IH (with_count g b)) as (b' & Hrun & Hbu' & Hns); [apply Hbu|].
      exists b'. split_and!; [done|by eapply bumped_trans|].
      intros c Hc. rewrite Hns by by apply (bumped_is_cell b).
      destruct (decide ((nx, ny) = c)) as [<-|Hne].
      * rewrite filter_cons_True, Hone by done. cbn [length]. unfold cell in *. lia.
      * rewrite filter_cons_False, Hother by done. unfold cell in *. lia.
    + destruct (IH b Hwf) as (b' & Hrun & Hbu' & Hns).
      exists b'. split_and!; [done..|].
      intros c Hc. rewrite Hns by done. rewrite filter_cons_False; [done|].
      intros <-. apply in_bounds_is_cell in Hc. congruence.
Qed.

Lemma count_list_exact cs : ∀ b,
  wf_board b → (∀ c, c ∈ cs → is_cell b c) →
  ∃ b', count_list cs b = Ok tt b' ∧ bumped b b' ∧
        ∀ n, is_cell b n →
          count_at b' n
          = count_at b n
            + Z.of_nat (length (filter (λ c, mine_at b c = true ∧ n ∈ neighbors8 c.1 c.2) cs)).
Proof.
  induction cs as [|[x y] cs IH]; intros b Hwf Hin.
  - exists b. split_and!; [done|by apply bumped_refl|]. intros n _. simpl. lia.
  - rewrite count_list_cons.
    assert (is_cell b (x, y)) as Hxy by (apply Hin; by left).
    rewrite (get_is_mine_cell b Hwf x y) by done.
    destruct (mine_at b (x, y)) eqn:Hm.
    + destruct (bump_list_exact (neighbors8 x y) b Hwf) as (b1 & Hrun1 & Hbu1 & Hns).
      unfold bump_neighbors. rewrite Hrun1.
      destruct (IH b1) as (b' & Hrun & Hbu' & Hrest); [apply Hbu1| |].
      { intros c Hc. apply (bumped_is_cell b b1); [done|]. apply Hin. by right. }
      exists b'. split_and!; [done|by eapply bumped_trans|].
      intros n Hn. rewrite Hrest by by apply (bumped_is_cell b b1).
      rewrite Hns by done. rewrite (length_filter_eq_NoDup _ _ (NoDup_neighbors8 x y)).
      assert (length (filter (λ c, mine_at b1 c = true ∧ n ∈ neighbors8 c.1 c.2) cs)
              = length (filter (λ c, mine_at b c = true ∧ n ∈ neighbors8 c.1 c.2) cs)) as ->.
      { apply filter_length_ext. intros c _. by rewrite (bumped_mine_at b b1). }
      destruct (decide (n ∈ neighbors8 x y)) as [Hnn|Hnn].
      * rewrite filter_cons_True by done. cbn [length]. unfold cell in *. lia.
      * rewrite filter_cons_False by (by intros [_ ?]). unfold cell in *. lia.
    + destruct (IH b Hwf) as (b' & Hrun & Hbu' & Hrest); [intros; apply Hin; by right|].
      exists b'. split_and!; [done..|].
      intros n Hn. rewrite Hrest by done. rewrite filter_cons_False; [done|].
      simpl. rewrite Hm. by intros [? _].
Qed.

(** The counts are the numbers of mined neighbours. *)
Definition counts_exact (b : Board) : Prop :=
  ∀ n, is_cell b n → count_at b n = Z.of_nat (length (mined_neighbors b n)).

Lemma mined_neighbors_by_cells b n :
  length (filter (λ c, mine_at b c = true ∧ n ∈ neighbors8 c.1 c.2) (cells_of b))
  = length (mined_neighbors b n).
Proof.
  apply Permutation_length, NoDup_Permutation.
  - apply NoDup_filter, NoDup_candidates.
  - apply NoDup_filter, NoDup_neighbors8.
  - intros c. unfold mined_neighbors. rewrite !list_elem_of_filter, elem_of_cells_of.
    split.
    + intros [[Hm Hn] Hc]. split; [done|]. by apply (neighbors8_sym c n).
    + intros [[Hc Hm] Hn]. split; [|done]. split; [done|]. by apply (neighbors8_sym n c).
Qed.

Lemma create_counts_exact shuffle w h m b :
  (∀ l, shuffle l ≡ₚ l) → new_board shuffle w h m = Ok tt b → counts_exact b.
Proof.
  intros Hperm. unfold new_board. rewrite create_unfold.
  set (b0 := Board_init w h m).
  destruct (place_mines_spec (shuffle (candidates w h)) 0 (fresh b0) (wf_fresh b0))
    as (g & Hrun & Hwf1 & Hmine).
  { intros c Hc. rewrite Hperm in Hc. by apply elem_of_candidates in Hc. }
  change (windowWidth b0) with w. change (windowHeight b0) with h.
  rewrite Hrun. set (b1 := with_is_mine g (fresh b0)) in *.
  change (windowWidth b1) with w. change (windowHeight b1) with h.
  destruct (count_list_exact (candidates w h) b1 Hwf1) as (b' & Hrun2 & Hbu & Hcnt).
  { intros c Hc. by apply elem_of_candidates in Hc. }
  rewrite Hrun2. intros [= <-] n Hn.
  destruct (bumped_fields _ _ Hbu) as (Hw & Hh & _).
  assert (is_cell b1 n) as Hn1 by by apply (bumped_is_cell b1 b').
  rewrite (Hcnt n Hn1).
  destruct (fresh_at b0 n Hn1) as (_ & _ & _ & Hz).
  change (count_at b1 n) with (count_at (fresh b0) n). rewrite Hz.
  rewrite <- mined_neighbors_by_cells. unfold cells_of. rewrite Hw, Hh.
  change (windowWidth b1) with w. change (windowHeight b1) with h.
  rewrite Z.add_0_l. do 2 f_equal. apply filter_ext_in. intros c _.
  by rewrite (bumped_mine_at b1 b').
Qed.

Lemma counts_exact_ext b b' :
  windowWidth b' = windowWidth b → windowHeight b' = windowHeight b →
  is_mine b' = is_mine b → neighboring_mine_count b' = neighboring_mine_count b →
  counts_exact b → counts_exact b'.
Proof.
  intros Hw Hh Hm Hc Hex n Hn.
  assert (∀ c, is_cell b' c ↔ is_cell b c) as Hcell.
  { intros c. unfold is_cell. by rewrite Hw, Hh. }
  unfold count_at. rewrite Hc. fold (count_at b n). rewrite Hex by by apply Hcell.
  do 2 f_equal. unfold mined_neighbors. apply filter_ext_in. intros c _.
  unfold mine_at. by rewrite Hm, Hcell.
Qed.

Lemma reachable_counts_exact shuffle w h m b :
  (∀ l, shuffle l ≡ₚ l) → reachable shuffle w h m b → counts_exact b.
Proof.
  intros Hperm. induction 1 as [b Hnew|b x y b' Hreach IH Hrun|b x y b' Hreach IH Hrun].
  - by eapply create_counts_exact.
  - pose proof (inv_wf _ _ _ _ (reachable_inv _ Hperm _ _ _ _ Hreach)) as Hwf.
    pose proof (click_fuel_evolves _ x y b b' Hwf Hrun) as Hev.
    apply (counts_exact_ext b b'); [apply Hev..|done].
  - pose proof (inv_wf _ _ _ _ (reachable_inv _ Hperm _ _ _ _ Hreach)) as Hwf.
    pose proof (flag_spec x y b Hwf) as Hspec.
    destruct (canon_of b x y) as [c|].
    + destruct (_bombed b || pressed_at b c).
      * rewrite Hspec in Hrun. by simplify_eq/=.
      * destruct Hspec as (g & Hflag & _). rewrite Hflag in Hrun. simplify_eq/=.
        by apply (counts_exact_ext b).
    + rewrite Hspec in Hrun. destruct (_bombed b); by simplify_eq/=.
Qed.

(** X8.  On every board reached from [create], the count of a block is the
    number of mined blocks among its neighbours on the board, hence between
    0 and 8: each mine adds 1 to each of its neighbours on the board, once. *)
Theorem counts_are_mined_neighbors (shuffle : list cell → list cell) (w h m : Z)
    (b : Board) (n : cell) :
  (∀ l, shuffle l ≡ₚ l) → reachable shuffle w h m b → is_cell b n →
  count_at b n = Z.of_nat (length (mined_neighbors b n)) ∧ 0 ≤ count_at b n ≤ 8.
Proof.
  intros Hperm Hreach Hn.
  rewrite (reachable_counts_exact _ _ _ _ _ Hperm Hreach n Hn). split; [done|].
  pose proof (length_filter (λ c, is_cell b c ∧ mine_at b c = true) (neighbors8 n.1 n.2))
    as Hle.
  unfold mined_neighbors. simpl in Hle. lia.
Qed.

Lemma counts_are_mined_neighbors_witness :
  count_at demo_board_opened (1, 1) = Z.of_nat (length (mined_neighbors demo_board_opened (1, 1)))
  ∧ 0 ≤ count_at demo_board_opened (1, 1) ≤ 8.
Proof.
  apply (counts_are_mined_neighbors id 5 5 1 demo_board_opened (1, 1));
    [apply id_perm|apply demo_board_opened_reachable|unfold is_cell; simpl; lia].
Defined.

(** ** [create] on a used board, and where its mines go *)



(** X10.  When at least one mine is asked for, the mined blocks of a created
    board are the first [mines] candidates of the shuffled list that are not
    in a corner (all of them when there are fewer): the shuffle alone decides
    where the mines are. *)
Theorem mines_are_first_candidates (shuffle : list cell → list cell) (w h m : Z)
    (b : Board) (c : cell) :
  (∀ l, shuffle l ≡ₚ l) → new_board shuffle w h m = Ok tt b → 0 < m → is_cell b c →
  mine_at b c = true ↔
  c ∈ take (Z.to_nat m) (filter (λ c, in_corner w h c.1 c.2 = false) (shuffle (candidates w h))).
Proof.
  intros Hperm Hnew Hm Hc.
  rewrite (cr_mine _ _ _ _ _ (new_board_created _ Hperm _ _ _ _ Hnew) c Hc).
  unfold placed. rewrite decide_True by done. by rewrite Z.sub_0_r.
Qed.

Lemma mines_are_first_candidates_witness :
  mine_at demo_board (0, 2) = true ↔
  (0, 2) ∈ take (Z.to_nat 1) (filter (λ c, in_corner 5 5 c.1 c.2 = false) (id (candidates 5 5))).
Proof.
  apply (mines_are_first_candidates id 5 5 1 demo_board (0, 2));
    [apply id_perm|apply demo_board_new|lia|unfold is_cell; simpl; lia].
Defined.

(** * Further properties of the solver *)

Lemma elem_of_neighbors8 (x y : Z) (c : cell) :
  c ∈ neighbors8 x y ↔
  x - 1 ≤ c.1 ≤ x + 1 ∧ y - 1 ≤ c.2 ≤ y + 1 ∧ (c.1 ≠ x ∨ c.2 ≠ y).
Proof.
  destruct c as [cx cy]. unfold neighbors8. simpl.
  rewrite !elem_of_cons, elem_of_nil. split.
  - intros H. repeat destruct H as [H|H]; try done; injection H as -> ->; lia.
  - intros (Hx & Hy & Hne).
    assert (cx = x - 1 ∨ cx = x ∨ cx = x + 1) as [-> | [-> | ->]] by lia;
      assert (cy = y - 1 ∨ cy = y ∨ cy = y + 1) as [-> | [-> | ->]] by lia;
      try lia; tauto.
Qed.

(** X11.  The blocks [add_constraint] sums over are the neighbours of the
    block, in the sense of the board, that are on the board and that the
    solver has not decided to click; none is listed twice. *)
Theorem add_constraint_neighbors (w h : Z) (ck : gset cell) (i j : Z) (c : cell) :
  NoDup (unknown_neighbors w h ck i j) ∧
  (c ∈ unknown_neighbors w h ck i j ↔
   c ∈ neighbors8 i j ∧ (0 ≤ c.1 < w ∧ 0 ≤ c.2 < h) ∧ c ∉ ck).
Proof.
  unfold unknown_neighbors. split.
  - apply NoDup_filter, NoDup_bind; [|intros x _|apply NoDup_seqZ].
    + intros x1 x2 c' _ _ H1 H2.
      apply list_elem_of_bind in H1 as (y1 & H1 & _), H2 as (y2 & H2 & _).
      apply list_elem_of_singleton in H1, H2. congruence.
    + apply NoDup_bind; [|intros y _; apply NoDup_singleton|apply NoDup_seqZ].
      intros y1 y2 c' _ _ H1 H2. apply list_elem_of_singleton in H1, H2. congruence.
  - rewrite list_elem_of_filter, elem_of_neighbors8.
    assert (c ∈ (x ← seqZ (i - 1) 3; y ← seqZ (j - 1) 3; [(x, y)])
            ↔ i - 1 ≤ c.1 ≤ i + 1 ∧ j - 1 ≤ c.2 ≤ j + 1) as ->.
    { rewrite list_elem_of_bind. split.
      - intros (x & Hin & Hx). apply list_elem_of_bind in Hin as (y & Hin & Hy).
        apply list_elem_of_singleton in Hin as ->. simpl.
        apply elem_of_seqZ in Hx, Hy. lia.
      - intros [Hx Hy]. exists c.1. split; [|apply elem_of_seqZ; lia].
        apply list_elem_of_bind. exists c.2. split; [|apply elem_of_seqZ; lia].
        destruct c. simpl. by apply list_elem_of_singleton. }
    tauto.
Qed.

(** ** What [get_next] decides *)

(** What the lists of the loop of [get_next] satisfy while [cells] are still
    to be visited. *)
Record scan_lists (ck fl : gset cell) (cells zp op : list cell) : Prop := {
  sl_zp_nodup : NoDup zp;
  sl_op_nodup : NoDup op;
  sl_disjoint : ∀ x, x ∈ zp → x ∉ op;
  sl_zp_visited : ∀ x, x ∈ zp → x ∉ cells;
  sl_op_visited : ∀ x, x ∈ op → x ∉ cells;
  sl_zp_new : ∀ x, x ∈ zp → x ∉ ck;
  sl_op_new : ∀ x, x ∈ op → x ∉ fl
}.

Lemma scan_lists_done val last ck fl cells : ∀ zp0 op0 m zp op,
  NoDup cells → scan_lists ck fl cells zp0 op0 →
  scan (Some val) last ck fl cells zp0 op0 m = Done zp op →
  scan_lists ck fl [] zp op.
Proof.
  induction cells as [|c cells IH]; intros zp0 op0 m zp op Hnd Hl Hscan.
  - by simplify_eq/=.
  - apply NoDup_cons in Hnd as [Hc Hnd]. rewrite scan_cons in Hscan.
    destruct Hl as [Hzn Hon Hdis Hzv Hov Hzk Hof].
    assert (c ∉ zp0) as Hcz by (intros Hin; apply (Hzv c Hin); by left).
    assert (c ∉ op0) as Hco by (intros Hin; apply (Hov c Hin); by left).
    assert (∀ x, x ∈ zp0 → x ∉ cells) as Hzv'.
    { intros x Hx Hin. apply (Hzv x Hx). by right. }
    assert (∀ x, x ∈ op0 → x ∉ cells) as Hov'.
    { intros x Hx Hin. apply (Hov x Hx). by right. }
    assert (scan_lists ck fl cells zp0 (flag_op val fl c op0)) as Hflag.
    { unfold flag_op. destruct (bool_decide (c ∉ fl)) eqn:Hfl; simpl; [|by split].
      apply bool_decide_eq_true in Hfl. destruct (near (val c) 1); [|by split].
      split; try done.
      - apply NoDup_app. split_and!; [done| |apply NoDup_singleton].
        by intros x Hx ->%list_elem_of_singleton.
      - intros x Hx [Hin| ->%list_elem_of_singleton]%elem_of_app; [by apply (Hdis x)|done].
      - intros x [Hin| ->%list_elem_of_singleton]%elem_of_app; [by apply Hov'|done].
      - intros x [Hin| ->%list_elem_of_singleton]%elem_of_app; [by apply Hof|done]. }
    case_bool_decide as Hck; [|by eapply IH].
    destruct (near (val c) (last c)); [done|].
    destruct (Qlt_bool (val c) m).
    { eapply IH; [done| |done]. split; try done.
      - apply NoDup_singleton.
      - by intros x ->%list_elem_of_singleton.
      - by intros x ->%list_elem_of_singleton.
      - by intros x ->%list_elem_of_singleton. }
    destruct (near (val c) m); [|by eapply IH].
    eapply IH; [done| |done]. split; try done.
    + apply NoDup_app. split_and!; [done| |apply NoDup_singleton].
      by intros x Hx ->%list_elem_of_singleton.
    + intros x [Hin| ->%list_elem_of_singleton]%elem_of_app; [by apply Hdis|done].
    + intros x [Hin| ->%list_elem_of_singleton]%elem_of_app; [by apply Hzv'|done].
    + intros x [Hin| ->%list_elem_of_singleton]%elem_of_app; [by apply Hzk|done].
Qed.

(** X12.  A call of [get_next] whose solve left values returns blocks of the
    board only, none twice; the blocks to click were not in [clicked] and
    are added to it, the blocks to flag were not in [flagged] and are added
    to it, and no block is returned both to click and to flag.  The
    constraints and [last_solution] are not touched. *)
Theorem get_next_decides (solve : list constraint → option (cell → Q)) (b : Board)
    (s s' : Solver) (val : cell → Q) (cl fl : list cell) :
  solve (constraints s) = Some val →
  get_next solve b s = Returned (s', (cl, fl)) →
  clicked s' = clicked s ∪ list_to_set cl ∧
  solver_flagged s' = solver_flagged s ∪ list_to_set fl ∧
  constraints s' = constraints s ∧ last_solution s' = last_solution s ∧
  NoDup cl ∧ NoDup fl ∧
  (∀ c, c ∈ cl → is_cell b c ∧ (c ∉ clicked s) ∧ (c ∉ fl)) ∧
  (∀ c, c ∈ fl → is_cell b c ∧ (c ∉ solver_flagged s)).
Proof.
  intros Hsolve Hnext. unfold get_next in Hnext. rewrite Hsolve in Hnext.
  pose proof (scan_subset val (last_solution s) (clicked s) (solver_flagged s)
                (candidates (windowWidth b) (windowHeight b)) [] [] 1%Q) as Hsub.
  pose proof (scan_lists_done val (last_solution s) (clicked s) (solver_flagged s)
                (candidates (windowWidth b) (windowHeight b)) [] [] 1%Q) as Hlists.
  destruct (scan _ _ _ _ _ _ _ _) as [c|zp op|] eqn:Hscan; [| |done].
  - injection Hnext as <- <- <-. simpl.
    destruct (candidates (windowWidth b) (windowHeight b)) as [|c0 cells] eqn:Hcells;
      [done|].
    split_and!; try done.
    + apply set_eq. intros x. rewrite !elem_of_union, elem_of_empty. tauto.
    + apply set_eq. intros x. rewrite elem_of_union, elem_of_empty. tauto.
    + apply NoDup_singleton.
    + constructor.
    + intros c' ->%list_elem_of_singleton. split_and!.
      * apply elem_of_cells_of. unfold cells_of. by rewrite Hcells.
      * clear Hlists Hsub. revert Hscan. rewrite <- Hcells.
        generalize (candidates (windowWidth b) (windowHeight b)).
        generalize ([] : list cell) at 1. generalize ([] : list cell). generalize 1%Q.
        intros m op zp l. revert m op zp.
        induction l as [|p l IH]; intros m op zp; [done|].
        rewrite scan_cons.
        case_bool_decide as Hck; [|by apply IH].
        destruct (near (val p) (last_solution s p)); [by intros [= <-]|].
        destruct (Qlt_bool (val p) m); [by apply IH|].
        destruct (near (val p) m); by apply IH.
      * apply not_elem_of_nil.
    + by intros c' ?%elem_of_nil.
  - injection Hnext as <- <- <-. simpl.
    destruct (Hlists zp op) as [Hzn Hon Hdis Hzv Hov Hzk Hof]; [apply NoDup_candidates| |done|].
    { split; try done; try apply NoDup_nil_2; by intros x ?%elem_of_nil. }
    destruct Hsub as [Hzp Hop].
    split_and!; try done.
    + intros c Hc. split_and!; [|by apply Hzk|by apply Hdis].
      destruct (Hzp c Hc) as [?%elem_of_nil|?]; [done|]. by apply elem_of_cells_of.
    + intros c Hc. split_and!; [|by apply Hof].
      destruct (Hop c Hc) as [?%elem_of_nil|?]; [done|]. by apply elem_of_cells_of.
Qed.

Lemma mine_estimate_run :
  get_next (λ _, Some mine_estimate) demo_board demo_solver
  = Returned (mkSolver (constraints demo_solver) (last_solution demo_solver)
                (clicked demo_solver ∪ list_to_set (filter (λ c, c ≠ (0, 2)) (candidates 5 5)))
                (solver_flagged demo_solver ∪ list_to_set [(0, 2)]),
              (filter (λ c, c ≠ (0, 2)) (candidates 5 5), [(0, 2)])).
Proof.
  unfold get_next.
  assert (scan (Some mine_estimate) (last_solution demo_solver) (clicked demo_solver)
            (solver_flagged demo_solver)
            (candidates (windowWidth demo_board) (windowHeight demo_board)) [] [] 1%Q
          = Done (filter (λ c, c ≠ (0, 2)) (candidates 5 5)) [(0, 2)]) as -> by by vm_compute.
  done.
Qed.

Lemma get_next_decides_witness :
  clicked (mkSolver (constraints demo_solver) (last_solution demo_solver)
             (clicked demo_solver ∪ list_to_set (filter (λ c, c ≠ (0, 2)) (candidates 5 5)))
             (solver_flagged demo_solver ∪ list_to_set [(0, 2)]))
  = clicked demo_solver ∪ list_to_set (filter (λ c, c ≠ (0, 2)) (candidates 5 5)) ∧
  solver_flagged (mkSolver (constraints demo_solver) (last_solution demo_solver)
             (clicked demo_solver ∪ list_to_set (filter (λ c, c ≠ (0, 2)) (candidates 5 5)))
             (solver_flagged demo_solver ∪ list_to_set [(0, 2)]))
  = solver_flagged demo_solver ∪ list_to_set [(0, 2)] ∧
  constraints (mkSolver (constraints demo_solver) (last_solution demo_solver)
             (clicked demo_solver ∪ list_to_set (filter (λ c, c ≠ (0, 2)) (candidates 5 5)))
             (solver_flagged demo_solver ∪ list_to_set [(0, 2)]))
  = constraints demo_solver ∧
  last_solution (mkSolver (constraints demo_solver) (last_solution demo_solver)
             (clicked demo_solver ∪ list_to_set (filter (λ c, c ≠ (0, 2)) (candidates 5 5)))
             (solver_flagged demo_solver ∪ list_to_set [(0, 2)]))
  = last_solution demo_solver ∧
  NoDup (filter (λ c, c ≠ (0, 2)) (candidates 5 5)) ∧ NoDup [((0, 2) : cell)] ∧
  (∀ c, c ∈ filter (λ c, c ≠ (0, 2)) (candidates 5 5) →
        is_cell demo_board c ∧ (c ∉ clicked demo_solver) ∧ (c ∉ [((0, 2) : cell)])) ∧
  (∀ c, c ∈ [((0, 2) : cell)] → is_cell demo_board c ∧ (c ∉ solver_flagged demo_solver)).
Proof.
  apply (get_next_decides (λ _, Some mine_estimate) demo_board demo_solver _ mine_estimate);
    [reflexivity|apply mine_estimate_run].
Defined.

Lemma scan_early val last ck fl c post : ∀ pre zp op m,
  c ∉ ck → near (val c) (last c) = true →
  (∀ p, p ∈ pre → p ∈ ck ∨ near (val p) (last p) = false) →
  scan (Some val) last ck fl (pre ++ c :: post) zp op m = Early c.
Proof.
  intros pre zp op m Hc Hnear. revert zp op m.
  induction pre as [|p pre IH]; intros zp op m Hpre.
  - rewrite app_nil_l, scan_cons. rewrite bool_decide_eq_true_2 by done. by rewrite Hnear.
  - rewrite <- app_comm_cons, scan_cons.
    assert (∀ q, q ∈ pre → q ∈ ck ∨ near (val q) (last q) = false) as Hpre'.
    { intros q Hq. apply Hpre. by right. }
    case_bool_decide as Hck; [|by apply IH].
    destruct (Hpre p) as [?| ->]; [by left|done|].
    destruct (Qlt_bool (val p) m); [by apply IH|].
    destruct (near (val p) m); by apply IH.
Qed.


(** A solver whose previous values are what the solve returns again. *)
Definition settled_solver : Solver :=
  mkSolver (constraints demo_solver) mine_estimate ∅ ∅.


(** ** The blocks [get_next] returns to click *)

Lemma Qlt_bool_true a b : Qlt_bool a b = true ↔ (a < b)%Q.
Proof. unfold Qlt_bool, Qlt. apply Z.ltb_lt. Qed.

Lemma Qlt_bool_false a b : Qlt_bool a b = false ↔ (b <= a)%Q.
Proof. unfold Qlt_bool, Qle. rewrite Z.ltb_ge. done. Qed.

Lemma near_refl v : near v v = true.
Proof.
  unfold near. apply Qlt_bool_true.
  assert (Qabs (v - v) == 0)%Q as ->; [|done].
  assert (v - v == 0)%Q as -> by ring. done.
Qed.

Lemma running_min_cons val ck m0 c pre :
  running_min val ck m0 (c :: pre)
  = running_min val ck
      (if bool_decide (c ∉ ck) && Qlt_bool (val c) m0 then val c else m0) pre.
Proof. done. Qed.

Lemma running_min_le val ck pre : ∀ m0, (running_min val ck m0 pre <= m0)%Q.
Proof.
  induction pre as [|c pre IH]; intros m0; [apply Qle_refl|].
  rewrite running_min_cons. eapply Qle_trans; [apply IH|].
  destruct (bool_decide (c ∉ ck)); simpl; [|apply Qle_refl].
  destruct (Qlt_bool (val c) m0) eqn:Hlt; [|apply Qle_refl].
  apply Qlt_le_weak. by apply Qlt_bool_true.
Qed.

Lemma running_min_lower val ck pre : ∀ m0 c,
  c ∈ pre → c ∉ ck → (running_min val ck m0 pre <= val c)%Q.
Proof.
  induction pre as [|p pre IH]; intros m0 c Hin Hc; [by apply elem_of_nil in Hin|].
  rewrite running_min_cons. apply elem_of_cons in Hin as [->|Hin]; [|by apply IH].
  eapply Qle_trans; [apply running_min_le|].
  rewrite bool_decide_eq_true_2 by done. simpl.
  destruct (Qlt_bool (val p) m0) eqn:Hlt; [apply Qle_refl|].
  by apply Qlt_bool_false.
Qed.

Lemma scan_zero_pos_near val last ck fl cells : ∀ zp0 op0 m0 zp op,
  scan (Some val) last ck fl cells zp0 op0 m0 = Done zp op →
  (∀ x, x ∈ zp0 → near (val x) m0 = true) →
  ∀ x, x ∈ zp → near (val x) (running_min val ck m0 cells) = true.
Proof.
  induction cells as [|c cells IH]; intros zp0 op0 m0 zp op Hscan Hzp0.
  - by simplify_eq/=.
  - rewrite scan_cons in Hscan. rewrite running_min_cons.
    case_bool_decide as Hck; simpl; [|by eapply IH].
    destruct (near (val c) (last c)); [done|].
    destruct (Qlt_bool (val c) m0).
    { eapply IH; [done|]. intros x ->%list_elem_of_singleton. apply near_refl. }
    destruct (near (val c) m0) eqn:Hnear; [|by eapply IH].
    eapply IH; [done|]. intros x [?| ->%list_elem_of_singleton]%elem_of_app; auto.
Qed.

(** X14.  In a call of [get_next] whose loop runs to its end, the minimum
    the loop ends with is at most 1 and at most the value of every block
    that is not in [clicked], and every block returned to click has a value
    within 1e-6 of that minimum. *)
Theorem get_next_clicks_near_minimum (solve : list constraint → option (cell → Q))
    (b : Board) (s : Solver) (val : cell → Q) (zero_pos one_pos : list cell) :
  solve (constraints s) = Some val →
  scan (Some val) (last_solution s) (clicked s) (solver_flagged s)
       (candidates (windowWidth b) (windowHeight b)) [] [] 1%Q = Done zero_pos one_pos →
  let min_prob := running_min val (clicked s) 1%Q
                    (candidates (windowWidth b) (windowHeight b)) in
  (min_prob <= 1)%Q ∧
  (∀ c, is_cell b c → c ∉ clicked s → (min_prob <= val c)%Q) ∧
  (∀ c, c ∈ zero_pos → near (val c) min_prob = true).
Proof.
  intros Hsolve Hscan min_prob. split_and!.
  - apply running_min_le.
  - intros c Hc Hck. apply running_min_lower; [|done]. by apply elem_of_cells_of.
  - eapply scan_zero_pos_near; [done|]. by intros x ?%elem_of_nil.
Qed.

Lemma get_next_clicks_near_minimum_witness :
  let min_prob := running_min mine_estimate (clicked demo_solver) 1%Q
                    (candidates (windowWidth demo_board) (windowHeight demo_board)) in
  (min_prob <= 1)%Q ∧
  (∀ c, is_cell demo_board c → c ∉ clicked demo_solver → (min_prob <= mine_estimate c)%Q) ∧
  (∀ c, c ∈ filter (λ c, c ≠ (0, 2)) (candidates 5 5) →
        near (mine_estimate c) min_prob = true).
Proof.
  apply (get_next_clicks_near_minimum (λ _, Some mine_estimate) demo_board demo_solver
           mine_estimate (filter (λ c, c ≠ (0, 2)) (candidates 5 5)) [(0, 2)]);
    [reflexivity|by vm_compute].
Defined.

(** * The game loop *)

Section MainLoop.
Variable solve : list constraint → option (cell → Q).

(** [Game.win] (without the display): the game stops. *)
Definition win (g : Game) : Game :=
  mkGame (board g) (solver g) false (loop_count g).

(** The loop of [Game.on_execute] when nothing is rendered: no key is read,
    and the loop returns as soon as the game is not running. *)
Fixpoint main_loop (fuel : nat) (g : Game) : result (bool * Game) :=
  match fuel with
  | O => Raised EOutOfFuel
  | S fuel' =>
    let round :=
      if _running g then
        match on_loop solve g with
        | Returned g' => Returned (if has_won (board g') then win g' else g')
        | Raised e => Raised e
        end
      else Returned g in
    match round with
    | Raised e => Raised e
    | Returned g1 =>
      if _running g1 then main_loop fuel' g1 else Returned (has_won (board g1), g1)
    end
  end.

(** [Game.on_execute], not rendered. *)
Definition on_execute (shuffle : list cell → list cell) (w h m : Z) (fuel : nat)
  : result (bool * Game) :=
  match on_init shuffle w h m with
  | Returned g => main_loop fuel g
  | Raised e => Raised e
  end.

Lemma click_all_reachable shuffle w h m cl : ∀ b s b' s',
  reachable shuffle w h m b → click_all cl b s = Returned (b', s') →
  reachable shuffle w h m b'.
Proof.
  induction cl as [|[x y] cl IH]; intros b s b' s' Hreach Hrun.
  - by simplify_eq/=.
  - cbn [click_all] in Hrun.
    destruct (click x y b) as [r b1|b1|] eqn:Hclick; [|done..].
    eapply IH; [|done]. eapply reach_click; [done|]. by rewrite Hclick.
Qed.

Lemma flag_all_reachable shuffle w h m fl : ∀ b b',
  reachable shuffle w h m b → flag_all fl b = Ok tt b' → reachable shuffle w h m b'.
Proof.
  induction fl as [|[x y] fl IH]; intros b b' Hreach Hrun.
  - unfold flag_all in Hrun. cbn [for_each] in Hrun. unfold ret in Hrun. by simplify_eq.
  - rewrite flag_all_cons in Hrun.
    destruct (flag x y b) as [[] b1|b1|] eqn:Hflag; [|done..].
    eapply IH; [|done]. eapply reach_flag; [done|]. by rewrite Hflag.
Qed.

Lemma on_loop_cases g g' :
  on_loop solve g = Returned g' →
  if _bombed (board g) then g' = mkGame (board g) (solver g) false (loop_count g)
  else ∃ s cl fl b s',
    get_next solve (board g) (solver g) = Returned (s, (cl, fl)) ∧
    click_all cl (board g) s = Returned (b, s') ∧
    flag_all fl b = Ok tt (board g') ∧
    solver g' = s' ∧ _running g' = _running g ∧ loop_count g' = loop_count g + 1.
Proof.
  unfold on_loop. destruct (_bombed (board g)); [by intros [= <-]|].
  destruct (get_next solve (board g) (solver g)) as [[s [cl fl]]|e]; [|done].
  destruct (click_all cl (board g) s) as [[b s']|e] eqn:Hall; [|done].
  destruct (flag_all fl b) as [[] b'|b'|] eqn:Hfl; [|done..].
  intros [= <-]. by eexists _, _, _, _, _.
Qed.


(** X16.  The loop of [on_execute], started on a running game, returns only
    when the game has stopped, and the game stops only when [remaining] is 0
    or a mine was clicked; what it returns is [has_won] of the board it
    ends with, which is one reached from the board it started with. *)
Theorem main_loop_returns (shuffle : list cell → list cell) (w h m : Z) (fuel : nat)
    (g g' : Game) (r : bool) :
  reachable shuffle w h m (board g) → _running g = true →
  main_loop fuel g = Returned (r, g') →
  r = has_won (board g') ∧ _running g' = false ∧
  (r = true ∨ _bombed (board g') = true) ∧
  reachable shuffle w h m (board g').
Proof.
  revert g. induction fuel as [|fuel IH]; intros g Hreach Hrun Hmain; [done|].
  cbn [main_loop] in Hmain. rewrite Hrun in Hmain.
  destruct (on_loop solve g) as [g1|e] eqn:Hloop; [|done].
  pose proof (on_loop_cases _ _ Hloop) as Hcases.
  assert (reachable shuffle w h m (board g1)) as Hreach1.
  { destruct (_bombed (board g)); [by subst|].
    destruct Hcases as (s & cl & fl & b & s' & _ & Hall & Hfl & _).
    eapply flag_all_reachable; [|done]. by eapply click_all_reachable. }
  destruct (has_won (board g1)) eqn:Hwon.
  - simpl in Hmain. injection Hmain as <- <-. simpl. rewrite Hwon. auto.
  - destruct (_running g1) eqn:Hrun1.
    + by apply (IH g1).
    + injection Hmain as <- <-. rewrite Hwon. split_and!; [done..| |done].
      right. destruct (_bombed (board g)) eqn:Hb; [by subst|].
      destruct Hcases as (? & ? & ? & ? & ? & _ & _ & _ & _ & Hr & _). congruence.
Qed.
End MainLoop.

(** The game that [on_execute] ends with on the example board when the
    solver first has the mined block clicked. *)
Definition demo_game_lost : Game :=
  mkGame (with_bombed true demo_board)
         (add_constraint demo_board 0 2 (-1)
            (mkSolver (constraints demo_solver) (last_solution demo_solver)
                      (clicked demo_solver ∪ list_to_set [(0, 2)])
                      (solver_flagged demo_solver ∪ list_to_set [])))
         false 1.

Lemma demo_game_lost_run :
  main_loop (λ _, Some spread_estimate) 2 demo_game = Returned (false, demo_game_lost).
Proof. by vm_compute. Qed.

Lemma main_loop_returns_witness :
  false = has_won (board demo_game_lost) ∧ _running demo_game_lost = false ∧
  (false = true ∨ _bombed (board demo_game_lost) = true) ∧
  reachable id 5 5 1 (board demo_game_lost).
Proof.
  apply (main_loop_returns (λ _, Some spread_estimate) id 5 5 1 2 demo_game demo_game_lost false);
    [apply reach_create, demo_board_new|reflexivity|apply demo_game_lost_run].
Defined.


(** * The safe start *)



(** * The counter [remaining] *)

(** X18.  When at least one mine was asked for and no more than there are
    blocks outside the corners, on every board reached from [create],
    [remaining] is the number of blocks that are neither mined nor pressed;
    it is never negative and never more than width x height - mines. *)
Theorem remaining_counts_safe_unpressed (shuffle : list cell → list cell) (w h m : Z)
    (b : Board) :
  (∀ l, shuffle l ≡ₚ l) →
  0 ≤ w → 0 ≤ h →
  1 ≤ m ≤ Z.of_nat (length (eligible w h)) →
  reachable shuffle w h m b →
  remaining b = Z.of_nat (length (safe_unpressed b)) ∧ 0 ≤ remaining b ≤ w * h - m.
Proof.
  intros Hperm Hw Hh Hm Hreach.
  pose proof (reachable_inv _ Hperm _ _ _ _ Hreach) as Hinv.
  pose proof (inv_remaining _ _ _ _ Hinv) as Hr.
  pose proof (inv_mine_count _ _ _ _ Hinv) as Hmc.
  rewrite decide_True in Hmc by lia.
  rewrite length_candidates in Hr.
  assert (remaining b = Z.of_nat (length (safe_unpressed b))) as Heq by nia.
  split; [done|]. rewrite Heq. split; [lia|].
  pose proof (length_filter_complement (λ c, mine_at b c = true) (cells_of b)) as Hlen.
  fold (mine_count b) in Hlen.
  assert (length (safe_unpressed b)
          ≤ length (filter (λ c, ¬ mine_at b c = true) (cells_of b)))%nat as Hle.
  { unfold safe_unpressed.
    rewrite <- (list_filter_filter_l
                  (λ c, mine_at b c = false ∧ pressed_at b c = false)
                  (λ c, ¬ mine_at b c = true)).
    - apply length_filter.
    - intros c [Hmc' _]. congruence. }
  assert (length (cells_of b) = (Z.to_nat w * Z.to_nat h)%nat) as Hcl.
  { unfold cells_of.
    by rewrite (inv_width _ _ _ _ Hinv), (inv_height _ _ _ _ Hinv), length_candidates. }
  unfold cell in *. nia.
Qed.

Lemma remaining_counts_safe_unpressed_witness :
  remaining demo_board_opened = Z.of_nat (length (safe_unpressed demo_board_opened)) ∧
  0 ≤ remaining demo_board_opened ≤ 5 * 5 - 1.
Proof.
  apply (remaining_counts_safe_unpressed id 5 5 1 demo_board_opened);
    [apply id_perm|lia|lia|by vm_compute|apply demo_board_opened_reachable].
Defined.
